(** * WebSocket frame parser and encoder (src/lib/frame.ts)

    A shallow embedding of [generateFirstByte], [WebsocketParser]
    ([createFrame], [readFrame], [readFragmentedBuffer], [clearFrames]) and
    [unmask], together with the part of the Node.js [Buffer] API these
    functions call, and the properties of the frame codec proved over it.

    Conventions.
    - A JavaScript number that holds a length, an offset or a byte value is a
      [Z]; [>>], [&] and [^] are [Z.shiftr], [Z.land] and [Z.lxor].
    - A [Buffer] is a [list byte]; [buf[i]] outside the buffer is
      [undefined], which is [None] here.
    - A thrown exception is the left injection of a sum; the methods of the
      parser run in a state-and-exception monad over the two private fields of
      the class, and the state in which an exception leaves the parser is part
      of the outcome.
    - [slice] returns a view on the memory of its argument.  No function of
      the file writes to a buffer it has taken a slice of, and the caller is
      taken not to write to a chunk it has handed to the parser, so views
      are modelled by value. *)

From Stdlib Require Import ZArith List Lia Bool String.
From coqutil Require Import Byte.
From stdpp Require Import base list.
Import ListNotations.

Local Open Scope Z_scope.

(** ** Exceptions *)

(** Modelled from the spec: ./constants is missing.  [ClosureStatus] is the
    enumeration of closure status codes; [PROTOCOL_ERROR] is the code of the
    protocol error of section 7, the one member [readFrame] uses. *)
Inductive ClosureStatus : Set := PROTOCOL_ERROR.

(** Modelled from the spec: ./errors is missing.  [WebSocketError] is the
    error that carries a closure status code (the ProtocolError of section
    7).  The other two are JavaScript's: the plain [Error] that [readFrame]
    throws with a message (the UnsupportedLengthError of section 7), and the
    [RangeError] the Buffer API raises on an access outside a buffer or a
    value outside its range. *)
Inductive exn : Set :=
| WebSocketError (status : ClosureStatus)
| Error (message : string)
| RangeError.

Definition result (A : Type) : Type := exn + A.

Definition ok {A} (a : A) : result A := inr a.
Definition throw {A} (e : exn) : result A := inl e.

Definition rbind {A B} (m : result A) (k : A -> result B) : result B :=
  match m with
  | inl e => inl e
  | inr a => k a
  end.

Declare Scope result_scope.
Delimit Scope result_scope with result.
Notation "x <- m ;; k" := (rbind m (fun x => k))
  (at level 100, m at next level, right associativity) : result_scope.

(** ** The Buffer API *)

(** The methods of Node's [Buffer] that [frame.ts] calls, after the Node.js
    documentation and lib/buffer.js.  The size limit of a buffer is not
    modelled. *)
Module Buffer.

Abbreviation t := (list Init.Byte.byte) (only parsing).

Definition byteLength (buf : t) : Z := Z.of_nat (length buf).

(** [buf[i]] *)
Definition get (buf : t) (i : Z) : option byte :=
  if i <? 0 then None else buf !! Z.to_nat i.

(** [Buffer.alloc(size)]: zero filled; a negative size is refused. *)
Definition alloc (size : Z) : result t :=
  if size <? 0 then throw RangeError
  else ok (replicate (Z.to_nat size) Byte.x00).

Definition readUInt8 (buf : t) (offset : Z) : result Z :=
  match get buf offset with
  | Some v => ok (byte.unsigned v)
  | None => throw RangeError
  end.

Definition readUInt16BE (buf : t) (offset : Z) : result Z :=
  match get buf offset, get buf (offset + 1) with
  | Some first, Some last =>
      ok (byte.unsigned first * 2 ^ 8 + byte.unsigned last)
  | _, _ => throw RangeError
  end.

Definition readUInt32BE (buf : t) (offset : Z) : result Z :=
  match get buf offset, get buf (offset + 1),
        get buf (offset + 2), get buf (offset + 3) with
  | Some first, Some b1, Some b2, Some last =>
      ok (byte.unsigned first * 2 ^ 24 + byte.unsigned b1 * 2 ^ 16
          + byte.unsigned b2 * 2 ^ 8 + byte.unsigned last)
  | _, _, _, _ => throw RangeError
  end.

(** [buf.writeUInt8(value, offset)]: the value must fit a byte and the
    offset must lie inside the buffer. *)
Definition writeUInt8 (buf : t) (value offset : Z) : result t :=
  if (value <? 0) || (255 <? value) then throw RangeError
  else match get buf offset with
       | Some _ => ok (<[Z.to_nat offset := byte.of_Z value]> buf)
       | None => throw RangeError
       end.

Definition writeUInt16BE (buf : t) (value offset : Z) : result t :=
  if (value <? 0) || (65535 <? value) then throw RangeError
  else match get buf offset, get buf (offset + 1) with
       | Some _, Some _ =>
           ok (<[Z.to_nat (offset + 1) := byte.of_Z (Z.land value 255)]>
                 (<[Z.to_nat offset := byte.of_Z (Z.shiftr value 8)]> buf))
       | _, _ => throw RangeError
       end.

(** Offsets of [slice] are clamped to the buffer; a negative one counts
    from the end. *)
Definition adjustOffset (offset length : Z) : Z :=
  if offset =? 0 then 0
  else if offset <? 0 then
         (if offset + length >? 0 then offset + length else 0)
  else if offset <? length then offset
  else length.

(** [buf.slice(start, end)]; [end_ = None] is the one-argument call. *)
Definition slice (buf : t) (start : Z) (end_ : option Z) : t :=
  let srcLength := byteLength buf in
  let start := adjustOffset start srcLength in
  let end_ := match end_ with
              | Some e => adjustOffset e srcLength
              | None => srcLength
              end in
  let newLength := if end_ >? start then end_ - start else 0 in
  take (Z.to_nat newLength) (drop (Z.to_nat start) buf).

(** [Buffer.concat(list, totalLength)]: the buffers are copied one after
    the other into a new buffer of [totalLength] bytes, cut at its end,
    and what they do not reach stays zero. *)
Definition concat (bufs : list t) (totalLength : Z) : result t :=
  if totalLength <? 0 then throw RangeError
  else
    let n := Z.to_nat totalLength in
    let data := take n (List.concat bufs) in
    ok (data ++ replicate (n - length data) Byte.x00).

End Buffer.

(** ** Interfaces *)

(** Modelled from the spec: ./interfaces is missing.  The three records are
    CreateFrameOptions, Frame and PendingPartialFrame of section 3, with the
    field names [frame.ts] reads and writes. *)

Module ICreateFrameOptions.
Record t : Type := Build { opcode : Z; fin : bool }.
End ICreateFrameOptions.

Module IFrame.
Record t : Type := Build {
  fin : bool;
  rsv1 : Z;
  rsv2 : Z;
  rsv3 : Z;
  opcode : Z;
  mask : bool;
  payloadLen : Z;
  payload : Buffer.t;
  frameLen : Z
}.
End IFrame.

Module IFragmentedFrame.
Record t : Type := Build {
  fin : bool;
  rsv1 : Z;
  rsv2 : Z;
  rsv3 : Z;
  mask : bool;
  opcode : Z;
  payloadLen : Z;
  rawPayload : Buffer.t;
  maskingKey : Buffer.t;
  byteOffset : Z
}.

(** [this.fragmentedFrame.rawPayload = raw] *)
Definition set_rawPayload (ff : t) (raw : Buffer.t) : t :=
  Build (fin ff) (rsv1 ff) (rsv2 ff) (rsv3 ff) (mask ff) (opcode ff)
        (payloadLen ff) raw (maskingKey ff) (byteOffset ff).
End IFragmentedFrame.

(** ** generateFirstByte *)

Definition generateFirstByte (options : ICreateFrameOptions.t) : Z :=
  let opcode := ICreateFrameOptions.opcode options in
  let fin := ICreateFrameOptions.fin options in
  if (opcode =? 1) && fin then 129
  else if (opcode =? 1) && negb fin then 1
  else if (opcode =? 2) && fin then 130
  else 2.

(** ** unmask *)

(** An operand of [^]: [undefined] converts to 0. *)
Definition toInt32 (v : option byte) : Z :=
  match v with
  | Some b => byte.unsigned b
  | None => 0
  end.

(** The body of the [for] loop of [unmask], run [n] more times from
    index [i]. *)
Fixpoint unmask_loop (n : nat) (i : Z) (rawPayload maskingKey payload : Buffer.t)
  : result Buffer.t :=
  match n with
  | O => ok payload
  | S n' =>
      let j := Z.rem i 4 in
      let decoded :=
        Z.lxor (toInt32 (Buffer.get rawPayload i))
               (toInt32 (Buffer.get maskingKey j)) in
      (payload <- Buffer.writeUInt8 payload decoded i ;;
       unmask_loop n' (i + 1) rawPayload maskingKey payload)%result
  end.

Definition unmask (rawPayload : Buffer.t) (payloadLen : Z) (maskingKey : Buffer.t)
  : result Buffer.t :=
  (payload <- Buffer.alloc payloadLen ;;
   unmask_loop (Z.to_nat payloadLen) 0 rawPayload maskingKey payload)%result.

(** ** WebsocketParser *)

(** The private fields of the class. *)
Record WebsocketParser : Type := mkParser {
  parsedFrames : list IFrame.t;
  fragmentedFrame : option IFragmentedFrame.t
}.

(** [new WebsocketParser()] *)
Definition newParser : WebsocketParser := mkParser [] None.

(** A method: from the parser it is called on to what it returns or throws,
    and the parser it leaves. *)
Definition M (A : Type) : Type := WebsocketParser -> result A * WebsocketParser.

Definition ret {A} (a : A) : M A := fun this => (ok a, this).
Definition bind {A B} (m : M A) (k : A -> M B) : M B :=
  fun this =>
    match m this with
    | (inl e, this') => (inl e, this')
    | (inr a, this') => k a this'
    end.
Definition lift {A} (r : result A) : M A := fun this => (r, this).
Definition get_fragmentedFrame : M (option IFragmentedFrame.t) :=
  fun this => (ok (fragmentedFrame this), this).
Definition set_fragmentedFrame (ff : option IFragmentedFrame.t) : M unit :=
  fun this => (ok tt, mkParser (parsedFrames this) ff).
(** [this.parsedFrames.push(frame)] *)
Definition push_frame (frame : IFrame.t) : M unit :=
  fun this => (ok tt, mkParser (parsedFrames this ++ [frame]) (fragmentedFrame this)).

Declare Scope method_scope.
Delimit Scope method_scope with method.
Notation "x <- m ;; k" := (bind m (fun x => k))
  (at level 100, m at next level, right associativity) : method_scope.
Notation "m ;;; k" := (bind m (fun _ => k))
  (at level 100, right associativity) : method_scope.

(** [get frames()] *)
Definition frames (this : WebsocketParser) : list IFrame.t := parsedFrames this.

Definition clearFrames (this : WebsocketParser) : WebsocketParser :=
  mkParser [] (fragmentedFrame this).

(** The payload loop of [createFrame]: the bytes of [payload] in order, each
    written at [byteOffset], which then advances by one. *)
Fixpoint write_payload (payload : list byte) (rawFrame : Buffer.t) (byteOffset : Z)
  : result Buffer.t :=
  match payload with
  | [] => ok rawFrame
  | b :: rest =>
      (rawFrame <- Buffer.writeUInt8 rawFrame (byte.unsigned b) byteOffset ;;
       write_payload rest rawFrame (byteOffset + 1))%result
  end.

Definition createFrame (payload : Buffer.t) (options : ICreateFrameOptions.t)
  : result Buffer.t :=
  let dataLen := Buffer.byteLength payload in
  let firstByte := generateFirstByte options in
  let payloadLen := if dataLen =? 126 then 126 else dataLen in
  let frameSize := 2 + (if dataLen =? 126 then 2 else 0) + dataLen in
  (rawFrame <- Buffer.alloc frameSize ;;
   rawFrame <- Buffer.writeUInt8 rawFrame firstByte 0 ;;
   rawFrame <- Buffer.writeUInt8 rawFrame payloadLen 1 ;;
   let byteOffset := 2 in
   st <- (if dataLen =? 126
          then (rawFrame <- Buffer.writeUInt16BE rawFrame dataLen byteOffset ;;
                ok (rawFrame, byteOffset + 1))
          else ok (rawFrame, byteOffset)) ;;
   write_payload payload (fst st) (snd st))%result.

(** *** readFragmentedBuffer *)

Definition readFragmentedBuffer (chunk : Buffer.t) : M Buffer.t :=
  (pending <- get_fragmentedFrame ;;
   match pending with
   | None => ret chunk
   | Some ff =>
       let remainingByteLen :=
         IFragmentedFrame.payloadLen ff
         - Buffer.byteLength (IFragmentedFrame.rawPayload ff) in
       if remainingByteLen >? Buffer.byteLength chunk then
         (raw <- lift (Buffer.concat
                         [IFragmentedFrame.rawPayload ff; chunk]
                         (Buffer.byteLength (IFragmentedFrame.rawPayload ff)
                          + Buffer.byteLength chunk)) ;;
          set_fragmentedFrame (Some (IFragmentedFrame.set_rawPayload ff raw)) ;;;
          ret [])
       else
         let remainingPart := Buffer.slice chunk 0 (Some remainingByteLen) in
         (raw <- lift (Buffer.concat
                         [IFragmentedFrame.rawPayload ff; remainingPart]
                         (Buffer.byteLength (IFragmentedFrame.rawPayload ff)
                          + remainingByteLen)) ;;
          set_fragmentedFrame (Some (IFragmentedFrame.set_rawPayload ff raw)) ;;;
          payload <- lift (if IFragmentedFrame.mask ff
                           then unmask raw
                                       (IFragmentedFrame.payloadLen ff)
                                       (IFragmentedFrame.maskingKey ff)
                           else ok raw) ;;
          let frame :=
            IFrame.Build
              (IFragmentedFrame.fin ff)
              (IFragmentedFrame.rsv1 ff)
              (IFragmentedFrame.rsv2 ff)
              (IFragmentedFrame.rsv3 ff)
              (IFragmentedFrame.opcode ff)
              (IFragmentedFrame.mask ff)
              (IFragmentedFrame.payloadLen ff)
              payload
              (IFragmentedFrame.byteOffset ff + Buffer.byteLength payload) in
          push_frame frame ;;;
          set_fragmentedFrame None ;;;
          ret (Buffer.slice chunk remainingByteLen None))
   end)%method.

(** *** readFrame *)

(** The local variables of [readFrame] once the header is read. *)
Module Header.
Record t : Type := Build {
  fin : bool;
  rsv1 : Z;
  rsv2 : Z;
  rsv3 : Z;
  opcode : Z;
  mask : bool;
  payloadLen : Z;
  maskingKey : Buffer.t;
  byteOffset : Z
}.
End Header.

Definition unsupported_length : exn :=
  Error "Payload with 8 byte length is not supported".

(** Lines 93-109 of [readFrame]: the two [if]s on [payloadLen], from the
    7-bit value of the second byte and the offset behind it to the payload
    length and the offset behind the length field.  The second [if] tests
    the value the first one has just read. *)
Definition parseLength (chunk : Buffer.t) (payloadLen byteOffset : Z)
  : result (Z * Z) :=
  (st <- (if payloadLen =? 126
          then (len16 <- Buffer.readUInt16BE chunk byteOffset ;;
                ok (len16, byteOffset + 2))
          else ok (payloadLen, byteOffset)) ;;
   let payloadLen := fst st in
   let byteOffset := snd st in
   if payloadLen =? 127
   then (first32bits <- Buffer.readUInt32BE chunk byteOffset ;;
         second32bits <- Buffer.readUInt32BE chunk (byteOffset + 4) ;;
         if negb (first32bits =? 0)
         then throw unsupported_length
         else ok (second32bits, byteOffset + 8))
   else ok (payloadLen, byteOffset))%result.

(** Lines 68-115 of [readFrame]: everything read before the payload. *)
Definition parseHeader (chunk : Buffer.t) : result Header.t :=
  (let byteOffset := 0 in
   firstByte <- Buffer.readUInt8 chunk byteOffset ;;
   let fin := negb (Z.land (Z.shiftr firstByte 7) 1 =? 0) in
   let rsv1 := Z.land (Z.shiftr firstByte 6) 1 in
   let rsv2 := Z.land (Z.shiftr firstByte 5) 1 in
   let rsv3 := Z.land (Z.shiftr firstByte 4) 1 in
   if negb (rsv1 =? 0) || negb (rsv2 =? 0) || negb (rsv3 =? 0)
   then throw (WebSocketError PROTOCOL_ERROR)
   else
     let opcode := Z.land firstByte 15 in
     let byteOffset := byteOffset + 1 in
     secondByte <- Buffer.readUInt8 chunk byteOffset ;;
     let mask := negb (Z.land (Z.shiftr secondByte 7) 1 =? 0) in
     let payloadLen := Z.land secondByte 127 in
     let byteOffset := byteOffset + 1 in
     st <- parseLength chunk payloadLen byteOffset ;;
     let payloadLen := fst st in
     let byteOffset := snd st in
     maskingKey <- Buffer.alloc 4 ;;
     let maskingKey :=
       if mask then Buffer.slice chunk byteOffset (Some (byteOffset + 4))
       else maskingKey in
     let byteOffset := if mask then byteOffset + 4 else byteOffset in
     ok (Header.Build fin rsv1 rsv2 rsv3 opcode mask payloadLen
                      maskingKey byteOffset))%result.

(** Lines 63-153 of [readFrame]: what it does with the chunk that
    [readFragmentedBuffer] hands back. *)
Definition parseFrame (chunk : Buffer.t) : M Buffer.t :=
  (if Buffer.byteLength chunk <=? 0 then ret chunk
   else
     h <- lift (parseHeader chunk) ;;
     let payloadLen := Header.payloadLen h in
     let byteOffset := Header.byteOffset h in
     let rawPayload :=
       Buffer.slice chunk byteOffset (Some (byteOffset + payloadLen)) in
     let remainingBuff := Buffer.slice chunk (byteOffset + payloadLen) None in
     if Buffer.byteLength rawPayload <? payloadLen
     then
       (set_fragmentedFrame
          (Some (IFragmentedFrame.Build
                   (Header.fin h) (Header.rsv1 h) (Header.rsv2 h)
                   (Header.rsv3 h) (Header.mask h) (Header.opcode h)
                   payloadLen rawPayload (Header.maskingKey h) byteOffset)) ;;;
        ret [])
     else
       (payload <- lift (if Header.mask h
                         then unmask rawPayload payloadLen (Header.maskingKey h)
                         else ok rawPayload) ;;
        let frame :=
          IFrame.Build
            (Header.fin h) (Header.rsv1 h) (Header.rsv2 h) (Header.rsv3 h)
            (Header.opcode h) (Header.mask h) payloadLen payload
            (byteOffset + Buffer.byteLength payload) in
        push_frame frame ;;;
        ret remainingBuff))%method.

Definition readFrame (chunk : Buffer.t) : M Buffer.t :=
  (chunk <- readFragmentedBuffer chunk ;;
   parseFrame chunk)%method.

(** ** Definitions used to state the properties *)

(** The transform of section 4.2 of the specification, byte by byte:
    [payload[i] = rawPayload[i] XOR maskingKey[i mod 4]], where a byte that
    is not there reads as 0. *)
Definition unmasked_byte (rawPayload maskingKey : Buffer.t) (i : nat) : byte :=
  byte.of_Z (Z.lxor (toInt32 (rawPayload !! i))
                    (toInt32 (maskingKey !! (i mod 4)%nat))).

Definition unmasked (rawPayload maskingKey : Buffer.t) (n : nat) : Buffer.t :=
  unmasked_byte rawPayload maskingKey <$> seq 0 n.

(** A caller that hands the chunks of a stream to [readFrame] one after the
    other; an exception ends the run. *)
Fixpoint readFrames (chunks : list Buffer.t) : M unit :=
  match chunks with
  | [] => ret tt
  | chunk :: rest => (readFrame chunk ;;; readFrames rest)%method
  end.

(** [unmask(unmask(rawPayload, payloadLen, key), payloadLen, key)] *)
Definition unmask_twice (rawPayload : Buffer.t) (payloadLen : Z) (maskingKey : Buffer.t)
  : result Buffer.t :=
  (once <- unmask rawPayload payloadLen maskingKey ;;
   unmask once payloadLen maskingKey)%result.

(** Bit 7 of the second byte of a frame on the wire, read the way
    [readFrame] reads it. *)
Definition mask_bit (rawFrame : Buffer.t) : option Z :=
  match rawFrame !! 1%nat with
  | Some secondByte => Some (Z.land (Z.shiftr (byte.unsigned secondByte) 7) 1)
  | None => None
  end.

(** The frame [readFrame] pushes for the header [h] and the payload
    [payload]. *)
Definition frame_of_header (h : Header.t) (payload : Buffer.t) : IFrame.t :=
  IFrame.Build
    (Header.fin h) (Header.rsv1 h) (Header.rsv2 h) (Header.rsv3 h)
    (Header.opcode h) (Header.mask h) (Header.payloadLen h) payload
    (Header.byteOffset h + Buffer.byteLength payload).

(** The pending frame [readFrame] stores for the header [h] when only
    [rawPayload] of the payload has arrived. *)
Definition fragment_of_header (h : Header.t) (rawPayload : Buffer.t)
  : IFragmentedFrame.t :=
  IFragmentedFrame.Build
    (Header.fin h) (Header.rsv1 h) (Header.rsv2 h) (Header.rsv3 h)
    (Header.mask h) (Header.opcode h) (Header.payloadLen h) rawPayload
    (Header.maskingKey h) (Header.byteOffset h).

(** The frame [readFragmentedBuffer] pushes for the pending frame [ff] once
    its payload is [payload]. *)
Definition frame_of_fragment (ff : IFragmentedFrame.t) (payload : Buffer.t)
  : IFrame.t :=
  IFrame.Build
    (IFragmentedFrame.fin ff) (IFragmentedFrame.rsv1 ff)
    (IFragmentedFrame.rsv2 ff) (IFragmentedFrame.rsv3 ff)
    (IFragmentedFrame.opcode ff) (IFragmentedFrame.mask ff)
    (IFragmentedFrame.payloadLen ff) payload
    (IFragmentedFrame.byteOffset ff + Buffer.byteLength payload).

(** [mask ? unmask(rawPayload, payloadLen, maskingKey) : rawPayload] *)
Definition unmask_if (mask : bool) (rawPayload : Buffer.t) (payloadLen : Z)
           (maskingKey : Buffer.t) : result Buffer.t :=
  if mask then unmask rawPayload payloadLen maskingKey else ok rawPayload.

(** The parsers a program can hold: a new one, and what the public methods
    leave behind, whether they return or throw.  The array the getter
    [frames] returns is the queue itself; the caller is taken to read it
    only. *)
Inductive reachable : WebsocketParser -> Prop :=
| reachable_new : reachable newParser
| reachable_clearFrames this :
    reachable this -> reachable (clearFrames this)
| reachable_readFrame this chunk :
    reachable this -> reachable (snd (readFrame chunk this))
| reachable_readFragmentedBuffer this chunk :
    reachable this -> reachable (snd (readFragmentedBuffer chunk this)).

(** The payload of a decoded frame is as long as its header says. *)
Definition payload_complete (frame : IFrame.t) : Prop :=
  Buffer.byteLength (IFrame.payload frame) = IFrame.payloadLen frame.

(** [s] is the wire form of the one frame [frame]: a new parser decodes it
    in one call, consumes all of it, and is left with that frame alone. *)
Definition complete_frame (s : Buffer.t) (frame : IFrame.t) : Prop :=
  readFrame s newParser = (ok [], mkParser [frame] None).

(** Four bytes as a big-endian 32-bit number. *)
Definition uint32BE (b0 b1 b2 b3 : byte) : Z :=
  byte.unsigned b0 * 2 ^ 24 + byte.unsigned b1 * 2 ^ 16
  + byte.unsigned b2 * 2 ^ 8 + byte.unsigned b3.

(** A decoded frame: its header fields are those of a header that
    [parseHeader] read from some chunk, its payload has the length that
    header gives, and its [frameLen] is the byte offset behind that header
    plus the length of the payload. *)
Definition decoded (frame : IFrame.t) : Prop :=
  exists chunk h,
    parseHeader chunk = ok h
    /\ frame = frame_of_header h (IFrame.payload frame)
    /\ payload_complete frame.

(** A pending frame: its header fields are those of a header that
    [parseHeader] read from some chunk, and it still misses at least one
    byte of its payload. *)
Definition awaiting (ff : IFragmentedFrame.t) : Prop :=
  Buffer.byteLength (IFragmentedFrame.rawPayload ff) < IFragmentedFrame.payloadLen ff
  /\ exists chunk h,
      parseHeader chunk = ok h
      /\ ff = fragment_of_header h (IFragmentedFrame.rawPayload ff).

(** The invariant of the parser. *)
Definition parser_inv (this : WebsocketParser) : Prop :=
  Forall decoded (parsedFrames this)
  /\ forall ff, fragmentedFrame this = Some ff -> awaiting ff.

(** A method that only ever appends to the queue of decoded frames,
    whether it returns or throws. *)
Definition appends {A} (m : M A) : Prop :=
  forall this, exists new,
    parsedFrames (snd (m this)) = parsedFrames this ++ new.

(** ** The caller's loop *)

(** The [while] loop of the [data] handler (README, "Update our data
    handler"): as long as the remainder is not empty, hand it to
    [readFrame] again.  [fuel] bounds the number of turns; the result is
    [false] when the bound is reached with a remainder still to read. *)
Fixpoint readRemaining (fuel : nat) (remainingBuff : Buffer.t) : M bool :=
  if Buffer.byteLength remainingBuff >? 0
  then match fuel with
       | O => ret false
       | S fuel' =>
           (remainingBuff <- readFrame remainingBuff ;;
            readRemaining fuel' remainingBuff)%method
       end
  else ret true.

(** The first two statements of the handler: [readFrame] on the chunk the
    socket delivers, then the loop on what it hands back. *)
Definition onData (fuel : nat) (buff : Buffer.t) : M bool :=
  (remainingBuff <- readFrame buff ;;
   readRemaining fuel remainingBuff)%method.

(** The errors [parseHeader] can throw. *)
Definition header_error (e : exn) : Prop :=
  e = RangeError \/ e = WebSocketError PROTOCOL_ERROR \/ e = unsupported_length.

(** * Properties *)

(** ** Bytes *)

Lemma byte_unsigned_bounds (b : byte) : 0 <= byte.unsigned b <= 255.
Proof. pose proof (byte.unsigned_range b). lia. Qed.

Lemma byte_unsigned_of_Z_small (z : Z) :
  0 <= z <= 255 -> byte.unsigned (byte.of_Z z) = z.
Proof.
  intros Hz. rewrite byte.unsigned_of_Z. unfold byte.wrap.
  apply Z.mod_small. lia.
Qed.

Lemma toInt32_bounds (v : option byte) : 0 <= toInt32 v <= 255.
Proof. destruct v; simpl; [apply byte_unsigned_bounds | lia]. Qed.

(** The exclusive or of two bytes is a byte. *)
Lemma lxor_byte_bounds (a b : Z) :
  0 <= a <= 255 -> 0 <= b <= 255 -> 0 <= Z.lxor a b <= 255.
Proof.
  intros Ha Hb.
  assert (Hnn : 0 <= Z.lxor a b) by (apply Z.lxor_nonneg; lia).
  split; [exact Hnn |].
  destruct (Z.eq_dec (Z.lxor a b) 0) as [-> | Hne]; [lia |].
  assert (Z.log2 (Z.lxor a b) < 8); [| apply Z.log2_lt_pow2 in H; lia].
  eapply Z.le_lt_trans; [apply Z.log2_lxor; lia |].
  apply Z.max_lub_lt.
  - destruct (Z.eq_dec a 0) as [-> | ?]; [reflexivity |].
    apply Z.log2_lt_pow2; lia.
  - destruct (Z.eq_dec b 0) as [-> | ?]; [reflexivity |].
    apply Z.log2_lt_pow2; lia.
Qed.

Lemma lxor_cancel_r (a k : Z) : Z.lxor (Z.lxor a k) k = a.
Proof. now rewrite Z.lxor_assoc, Z.lxor_nilpotent, Z.lxor_0_r. Qed.

(** ** The Buffer API *)

Lemma byteLength_nonneg (buf : Buffer.t) : 0 <= Buffer.byteLength buf.
Proof. unfold Buffer.byteLength. lia. Qed.

Lemma byteLength_app (a b : Buffer.t) :
  Buffer.byteLength (a ++ b) = Buffer.byteLength a + Buffer.byteLength b.
Proof. unfold Buffer.byteLength. rewrite length_app. lia. Qed.

Lemma get_nat (buf : Buffer.t) (i : nat) : Buffer.get buf (Z.of_nat i) = buf !! i.
Proof.
  unfold Buffer.get.
  destruct (Z.ltb_spec (Z.of_nat i) 0); [lia |]. now rewrite Nat2Z.id.
Qed.

Lemma take_drop_clamp {A} (l : list A) (a b : nat) :
  take a (drop b l)
  = take (Nat.min a (length l - b)) (drop (Nat.min b (length l)) l).
Proof.
  destruct (Nat.le_gt_cases b (length l)) as [Hb | Hb].
  - rewrite (Nat.min_l b) by lia.
    destruct (Nat.le_gt_cases a (length l - b)) as [Ha | Ha].
    + now rewrite (Nat.min_l a) by lia.
    + rewrite (Nat.min_r a) by lia.
      rewrite !take_ge; [reflexivity | rewrite length_drop; lia ..].
  - rewrite (Nat.min_r b) by lia.
    rewrite !drop_ge by lia. now rewrite !take_nil.
Qed.

Lemma take_drop_ext {A} (l : list A) (a b a' b' : nat) :
  Nat.min b (length l) = Nat.min b' (length l) ->
  Nat.min a (length l - b) = Nat.min a' (length l - b') ->
  take a (drop b l) = take a' (drop b' l).
Proof.
  intros Hb Ha.
  rewrite (take_drop_clamp l a b), (take_drop_clamp l a' b').
  now rewrite Hb, Ha.
Qed.

Lemma adjustOffset_nonneg (offset length : Z) :
  0 <= offset -> 0 <= length ->
  Buffer.adjustOffset offset length = Z.min offset length.
Proof.
  intros Ho Hl. unfold Buffer.adjustOffset.
  destruct (Z.eqb_spec offset 0); [lia |].
  destruct (Z.ltb_spec offset 0); [lia |].
  destruct (Z.ltb_spec offset length); lia.
Qed.

(** [slice] between two offsets that are not negative. *)
Lemma slice_range (buf : Buffer.t) (s e : Z) :
  0 <= s -> 0 <= e ->
  Buffer.slice buf s (Some e) = take (Z.to_nat (e - s)) (drop (Z.to_nat s) buf).
Proof.
  intros Hs He. unfold Buffer.slice.
  pose proof (byteLength_nonneg buf) as Hn.
  rewrite !adjustOffset_nonneg by assumption.
  unfold Buffer.byteLength in *.
  apply take_drop_ext; destruct (Z.gtb_spec (Z.min e (Z.of_nat (length buf)))
                                            (Z.min s (Z.of_nat (length buf)))); lia.
Qed.

(** [slice] from an offset that is not negative to the end. *)
Lemma slice_from (buf : Buffer.t) (s : Z) :
  0 <= s -> Buffer.slice buf s None = drop (Z.to_nat s) buf.
Proof.
  intros Hs. unfold Buffer.slice.
  pose proof (byteLength_nonneg buf) as Hn.
  rewrite adjustOffset_nonneg by assumption.
  unfold Buffer.byteLength in *.
  rewrite <- (take_ge (drop (Z.to_nat s) buf) (length buf))
    by (rewrite length_drop; lia).
  apply take_drop_ext; destruct (Z.gtb_spec (Z.of_nat (length buf))
                                            (Z.min s (Z.of_nat (length buf)))); lia.
Qed.

Lemma concat_pair (a b : Buffer.t) (total : Z) :
  total = Buffer.byteLength a + Buffer.byteLength b ->
  Buffer.concat [a; b] total = ok (a ++ b).
Proof.
  intros ->. unfold Buffer.concat, Buffer.byteLength.
  destruct (Z.ltb_spec (Z.of_nat (length a) + Z.of_nat (length b)) 0); [lia |].
  simpl. rewrite app_nil_r.
  rewrite take_ge by (rewrite length_app; lia).
  replace (_ - _)%nat with 0%nat by (rewrite length_app; lia).
  simpl. now rewrite app_nil_r.
Qed.

(** ** unmask *)

Lemma writeUInt8_at (pre : Buffer.t) (old : byte) (suf : Buffer.t) (value : Z) :
  0 <= value <= 255 ->
  Buffer.writeUInt8 (pre ++ old :: suf) value (Buffer.byteLength pre)
  = ok (pre ++ byte.of_Z value :: suf).
Proof.
  intros Hv. unfold Buffer.writeUInt8, Buffer.byteLength.
  destruct (Z.ltb_spec value 0); [lia |].
  destruct (Z.ltb_spec 255 value); [lia |]. simpl.
  rewrite get_nat, list_lookup_middle by reflexivity.
  rewrite Nat2Z.id.
  replace (length pre) with (length pre + 0)%nat at 1 by lia.
  now rewrite insert_app_r.
Qed.

Lemma rem4_nat (i : nat) : Z.rem (Z.of_nat i) 4 = Z.of_nat (i mod 4).
Proof. rewrite Z.rem_mod_nonneg by lia. now rewrite Nat2Z.inj_mod. Qed.

Lemma unmask_loop_spec (rawPayload maskingKey : Buffer.t) (n : nat) :
  forall (done : Buffer.t),
    unmask_loop n (Buffer.byteLength done) rawPayload maskingKey
                (done ++ replicate n Byte.x00)
    = ok (done ++ (unmasked_byte rawPayload maskingKey <$> seq (length done) n)).
Proof.
  induction n as [| n IH]; intros done; simpl.
  - reflexivity.
  - rewrite writeUInt8_at
      by (apply lxor_byte_bounds; apply toInt32_bounds).
    simpl.
    set (v := byte.of_Z _).
    specialize (IH (done ++ [v])).
    rewrite byteLength_app, <- !app_assoc in IH. simpl in IH.
    change (Buffer.byteLength [v]) with 1 in IH.
    rewrite IH. do 3 f_equal.
    + unfold v, unmasked_byte, Buffer.byteLength.
      now rewrite rem4_nat, !get_nat.
    + rewrite length_app. simpl. now replace (length done + 1)%nat with (S (length done)) by lia.
Qed.

(** [unmask] never throws on a length that is not negative, and computes the
    transform of the specification. *)
Lemma unmask_unmasked (rawPayload maskingKey : Buffer.t) (payloadLen : Z) :
  0 <= payloadLen ->
  unmask rawPayload payloadLen maskingKey
  = ok (unmasked rawPayload maskingKey (Z.to_nat payloadLen)).
Proof.
  intros Hlen. unfold unmask, Buffer.alloc.
  destruct (Z.ltb_spec payloadLen 0); [lia |]. simpl.
  exact (unmask_loop_spec rawPayload maskingKey (Z.to_nat payloadLen) []).
Qed.

Lemma unmask_negative (rawPayload maskingKey : Buffer.t) (payloadLen : Z) :
  payloadLen < 0 -> unmask rawPayload payloadLen maskingKey = throw RangeError.
Proof.
  intros Hlen. unfold unmask, Buffer.alloc.
  now destruct (Z.ltb_spec payloadLen 0); [| lia].
Qed.

Lemma length_unmasked (rawPayload maskingKey : Buffer.t) (n : nat) :
  length (unmasked rawPayload maskingKey n) = n.
Proof. unfold unmasked. now rewrite length_fmap, length_seq. Qed.

Lemma lookup_unmasked (rawPayload maskingKey : Buffer.t) (n i : nat) :
  (i < n)%nat ->
  unmasked rawPayload maskingKey n !! i = Some (unmasked_byte rawPayload maskingKey i).
Proof.
  intros Hi. unfold unmasked.
  now rewrite list_lookup_fmap, lookup_seq_lt by assumption.
Qed.

(** Two passes with the same key restore every byte that was there, and
    leave 0 where the input had none. *)
Lemma unmasked_twice_byte (rawPayload maskingKey : Buffer.t) (n i : nat) :
  (i < n)%nat ->
  unmasked_byte (unmasked rawPayload maskingKey n) maskingKey i
  = match rawPayload !! i with Some b => b | None => Byte.x00 end.
Proof.
  intros Hi. unfold unmasked_byte at 1.
  rewrite lookup_unmasked by assumption. simpl.
  unfold unmasked_byte.
  rewrite byte_unsigned_of_Z_small
    by (apply lxor_byte_bounds; apply toInt32_bounds).
  rewrite lxor_cancel_r.
  destruct (rawPayload !! i); simpl; [apply byte.of_Z_unsigned | reflexivity].
Qed.

Lemma unmasked_involutive (rawPayload maskingKey : Buffer.t) (n : nat) :
  (n <= length rawPayload)%nat ->
  unmasked (unmasked rawPayload maskingKey n) maskingKey n = take n rawPayload.
Proof.
  intros Hn. apply list_eq. intros i.
  destruct (Nat.lt_ge_cases i n) as [Hi | Hi].
  - rewrite lookup_unmasked, unmasked_twice_byte by assumption.
    rewrite lookup_take_lt by assumption.
    destruct (lookup_lt_is_Some_2 rawPayload i) as [b Hb]; [lia |].
    now rewrite Hb.
  - rewrite !lookup_ge_None_2; [reflexivity | |].
    + rewrite length_take. lia.
    + now rewrite length_unmasked.
Qed.

Lemma unmask_length (rawPayload maskingKey payload : Buffer.t) (payloadLen : Z) :
  unmask rawPayload payloadLen maskingKey = ok payload ->
  Buffer.byteLength payload = payloadLen.
Proof.
  destruct (Z.lt_ge_cases payloadLen 0) as [Hneg | Hpos].
  - now rewrite unmask_negative.
  - rewrite unmask_unmasked by assumption. intros [= <-].
    unfold Buffer.byteLength. rewrite length_unmasked. lia.
Qed.

(** C3, as amended.  For a length that does not exceed the input, [unmask]
    returns a buffer of exactly [payloadLen] bytes, and a second pass with
    the same length and key returns the first [payloadLen] bytes of the
    input, whatever the key (a 4-byte key in particular).  [unmask] is a
    function of its three arguments only: it reads and writes no state of
    the parser, and builds its result in a buffer of its own. *)
Theorem unmask_involution (rawPayload maskingKey : Buffer.t) (payloadLen : Z) :
  0 <= payloadLen <= Buffer.byteLength rawPayload ->
  exists once,
    unmask rawPayload payloadLen maskingKey = ok once
    /\ Buffer.byteLength once = payloadLen
    /\ unmask once payloadLen maskingKey = ok (take (Z.to_nat payloadLen) rawPayload)
    /\ unmask_twice rawPayload payloadLen maskingKey
       = ok (take (Z.to_nat payloadLen) rawPayload).
Proof.
  intros [Hlo Hhi].
  exists (unmasked rawPayload maskingKey (Z.to_nat payloadLen)).
  assert (Htwice : unmask (unmasked rawPayload maskingKey (Z.to_nat payloadLen))
                          payloadLen maskingKey
                   = ok (take (Z.to_nat payloadLen) rawPayload)).
  { rewrite unmask_unmasked by assumption. f_equal.
    apply unmasked_involutive. unfold Buffer.byteLength in Hhi. lia. }
  repeat split.
  - now apply unmask_unmasked.
  - unfold Buffer.byteLength. rewrite length_unmasked. lia.
  - exact Htwice.
  - unfold unmask_twice. rewrite unmask_unmasked by assumption. exact Htwice.
Qed.

Lemma unmask_involution_witness :
  exists once,
    unmask [Byte.x61; Byte.x62; Byte.x63; Byte.x64; Byte.x65] 5
           [Byte.x01; Byte.x02; Byte.x03; Byte.x04] = ok once
    /\ Buffer.byteLength once = 5
    /\ unmask once 5 [Byte.x01; Byte.x02; Byte.x03; Byte.x04]
       = ok (take (Z.to_nat 5) [Byte.x61; Byte.x62; Byte.x63; Byte.x64; Byte.x65])
    /\ unmask_twice [Byte.x61; Byte.x62; Byte.x63; Byte.x64; Byte.x65] 5
                    [Byte.x01; Byte.x02; Byte.x03; Byte.x04]
       = ok (take (Z.to_nat 5) [Byte.x61; Byte.x62; Byte.x63; Byte.x64; Byte.x65]).
Proof.
  apply (unmask_involution [Byte.x61; Byte.x62; Byte.x63; Byte.x64; Byte.x65]
                           [Byte.x01; Byte.x02; Byte.x03; Byte.x04] 5).
  vm_compute. split; discriminate.
Defined.

(** C3 as stated fails when [payloadLen] exceeds the input: on the empty
    input and length 1 the first pass returns the key byte, the second
    returns one zero byte, and the input restricted to its first byte is
    empty. *)
Lemma unmask_twice_past_input :
  unmask [] 1 [Byte.x01; Byte.x02; Byte.x03; Byte.x04] = ok [Byte.x01]
  /\ unmask_twice [] 1 [Byte.x01; Byte.x02; Byte.x03; Byte.x04] = ok [Byte.x00]
  /\ unmask_twice [] 1 [Byte.x01; Byte.x02; Byte.x03; Byte.x04]
     <> ok (take (Z.to_nat 1) []).
Proof. repeat split; [vm_compute; reflexivity .. | vm_compute; discriminate]. Qed.

(** Past the end of the input the second pass yields zeros: in general
    two passes return the input cut or zero-padded to [payloadLen] bytes. *)
Lemma unmask_twice_padded (rawPayload maskingKey : Buffer.t) (payloadLen : Z) :
  0 <= payloadLen ->
  unmask_twice rawPayload payloadLen maskingKey
  = ok (take (Z.to_nat payloadLen)
             (rawPayload ++ replicate (Z.to_nat payloadLen) Byte.x00)).
Proof.
  intros Hlen. unfold unmask_twice. rewrite unmask_unmasked by assumption. simpl.
  rewrite unmask_unmasked by assumption. f_equal.
  set (n := Z.to_nat payloadLen).
  apply list_eq. intros i.
  destruct (Nat.lt_ge_cases i n) as [Hi | Hi].
  - rewrite lookup_unmasked, unmasked_twice_byte by assumption.
    rewrite lookup_take_lt by assumption.
    destruct (Nat.lt_ge_cases i (length rawPayload)) as [Hin | Hout].
    + rewrite lookup_app_l by assumption.
      destruct (lookup_lt_is_Some_2 rawPayload i) as [b Hb]; [lia |].
      now rewrite Hb.
    + rewrite lookup_app_r by assumption.
      rewrite (lookup_ge_None_2 rawPayload) by assumption.
      now rewrite lookup_replicate_2 by lia.
  - rewrite !lookup_ge_None_2; [reflexivity | |].
    + rewrite length_take. lia.
    + now rewrite length_unmasked.
Qed.

(** ** createFrame *)

Lemma generateFirstByte_cases (options : ICreateFrameOptions.t) :
  generateFirstByte options = 129 \/ generateFirstByte options = 1
  \/ generateFirstByte options = 130 \/ generateFirstByte options = 2.
Proof.
  unfold generateFirstByte.
  destruct (ICreateFrameOptions.opcode options =? 1),
           (ICreateFrameOptions.opcode options =? 2),
           (ICreateFrameOptions.fin options); simpl; auto.
Qed.

Lemma generateFirstByte_bounds (options : ICreateFrameOptions.t) :
  0 <= generateFirstByte options <= 255.
Proof. destruct (generateFirstByte_cases options) as [-> | [-> | [-> | ->]]]; lia. Qed.

(** The payload loop overwrites as many bytes as the payload has, from the
    offset it starts at. *)
Lemma write_payload_spec (payload : Buffer.t) :
  forall (pre old suf : Buffer.t),
    length old = length payload ->
    write_payload payload (pre ++ old ++ suf) (Buffer.byteLength pre)
    = ok (pre ++ payload ++ suf).
Proof.
  induction payload as [| b payload IH]; intros pre old suf Hlen.
  - destruct old; [reflexivity | discriminate].
  - destruct old as [| o old]; [discriminate |]. simpl.
    rewrite writeUInt8_at by apply byte_unsigned_bounds.
    rewrite byte.of_Z_unsigned. simpl.
    specialize (IH (pre ++ [b]) old suf).
    rewrite byteLength_app, <- !app_assoc in IH.
    apply IH. simpl in Hlen. lia.
Qed.

Lemma writeUInt8_0 (old : byte) (suf : Buffer.t) (value : Z) :
  0 <= value <= 255 ->
  Buffer.writeUInt8 (old :: suf) value 0 = ok (byte.of_Z value :: suf).
Proof. exact (writeUInt8_at [] old suf value). Qed.

Lemma writeUInt8_1 (b0 old : byte) (suf : Buffer.t) (value : Z) :
  0 <= value <= 255 ->
  Buffer.writeUInt8 (b0 :: old :: suf) value 1 = ok (b0 :: byte.of_Z value :: suf).
Proof. exact (writeUInt8_at [b0] old suf value). Qed.

Lemma writeUInt16BE_126_at_2 (b0 b1 b2 b3 : byte) (suf : Buffer.t) :
  Buffer.writeUInt16BE (b0 :: b1 :: b2 :: b3 :: suf) 126 2
  = ok (b0 :: b1 :: Byte.x00 :: Byte.x7e :: suf).
Proof. reflexivity. Qed.

(** What [createFrame] returns for a payload that is not 126 bytes long and
    whose length fits a byte: the two header bytes, then the payload. *)
Lemma createFrame_short (payload : Buffer.t) (options : ICreateFrameOptions.t) :
  Buffer.byteLength payload <> 126 ->
  Buffer.byteLength payload <= 255 ->
  createFrame payload options
  = ok (byte.of_Z (generateFirstByte options)
        :: byte.of_Z (Buffer.byteLength payload) :: payload).
Proof.
  intros Hne Hle. unfold createFrame.
  pose proof (byteLength_nonneg payload) as Hnn.
  destruct (Z.eqb_spec (Buffer.byteLength payload) 126); [contradiction |].
  unfold Buffer.alloc.
  destruct (Z.ltb_spec (2 + 0 + Buffer.byteLength payload) 0); [lia |].
  replace (Z.to_nat (2 + 0 + Buffer.byteLength payload))
    with (S (S (length payload))) by (unfold Buffer.byteLength; lia).
  cbn [replicate rbind ok].
  rewrite writeUInt8_0 by apply generateFirstByte_bounds. cbn [rbind ok].
  rewrite writeUInt8_1 by lia. cbn [rbind ok fst snd].
  pose proof (write_payload_spec payload
                [byte.of_Z (generateFirstByte options);
                 byte.of_Z (Buffer.byteLength payload)]
                (replicate (length payload) Byte.x00) []) as Hw.
  rewrite !app_nil_r in Hw. apply Hw. apply length_replicate.
Qed.

(** What [createFrame] returns for a payload of 126 bytes: the 16-bit
    length is written at offsets 2 and 3, the offset then advances by one,
    and the payload is written from offset 3 on; the last byte of the frame
    is never written. *)
Lemma createFrame_126 (payload : Buffer.t) (options : ICreateFrameOptions.t) :
  Buffer.byteLength payload = 126 ->
  createFrame payload options
  = ok (byte.of_Z (generateFirstByte options)
        :: Byte.x7e :: Byte.x00 :: payload ++ [Byte.x00]).
Proof.
  intros Hlen. unfold createFrame. rewrite Hlen.
  change (126 =? 126) with true. cbv iota.
  change (Buffer.alloc (2 + 2 + 126))
    with (ok (Byte.x00 :: Byte.x00 :: Byte.x00 :: Byte.x00
              :: replicate 125 Byte.x00 ++ [Byte.x00])).
  cbn [rbind ok].
  rewrite writeUInt8_0 by apply generateFirstByte_bounds. cbn [rbind ok].
  rewrite writeUInt8_1 by lia. cbn [rbind ok].
  rewrite writeUInt16BE_126_at_2. cbn [rbind ok fst snd].
  change (byte.of_Z 126) with Byte.x7e.
  apply (write_payload_spec payload
           [byte.of_Z (generateFirstByte options); Byte.x7e; Byte.x00]
           (Byte.x7e :: replicate 125 Byte.x00) [Byte.x00]).
  unfold Buffer.byteLength in Hlen. cbn [length]. rewrite length_replicate. lia.
Qed.

(** A payload whose length does not fit a byte is refused: the length is
    handed to [writeUInt8] as it is. *)
Lemma createFrame_long (payload : Buffer.t) (options : ICreateFrameOptions.t) :
  255 < Buffer.byteLength payload ->
  createFrame payload options = throw RangeError.
Proof.
  intros Hlt. unfold createFrame.
  destruct (Z.eqb_spec (Buffer.byteLength payload) 126); [lia |].
  unfold Buffer.alloc.
  destruct (Z.ltb_spec (2 + 0 + Buffer.byteLength payload) 0); [lia |].
  replace (Z.to_nat (2 + 0 + Buffer.byteLength payload))
    with (S (S (length payload))) by (unfold Buffer.byteLength; lia).
  cbn [replicate rbind ok].
  rewrite writeUInt8_0 by apply generateFirstByte_bounds. cbn [rbind ok].
  unfold Buffer.writeUInt8.
  destruct (Z.ltb_spec 255 (Buffer.byteLength payload)); [| lia].
  now rewrite orb_true_r.
Qed.

Lemma shiftr7_small (z : Z) : 0 <= z < 128 -> Z.shiftr z 7 = 0.
Proof. intros Hz. rewrite Z.shiftr_div_pow2 by lia. apply Z.div_small. lia. Qed.

Lemma shiftr7_large (z : Z) : 128 <= z <= 255 -> Z.shiftr z 7 = 1.
Proof.
  intros Hz. rewrite Z.shiftr_div_pow2 by lia.
  change (2 ^ 7) with 128. symmetry. apply (Z.div_unique z 128 1 (z - 128)); lia.
Qed.

(** The mask bit of every frame [createFrame] returns: the bit is bit 7 of
    the payload length. *)
Lemma createFrame_mask_bit (payload rawFrame : Buffer.t) (options : ICreateFrameOptions.t) :
  createFrame payload options = ok rawFrame ->
  mask_bit rawFrame = Some (if Buffer.byteLength payload <? 128 then 0 else 1).
Proof.
  intros Hc. pose proof (byteLength_nonneg payload) as Hnn.
  destruct (Z.eq_dec (Buffer.byteLength payload) 126) as [H126 | H126].
  - rewrite createFrame_126 in Hc by assumption. injection Hc as <-.
    now rewrite H126.
  - destruct (Z.le_gt_cases (Buffer.byteLength payload) 255) as [Hle | Hgt].
    + rewrite createFrame_short in Hc by assumption. injection Hc as <-.
      unfold mask_bit. cbn [lookup list_lookup].
      rewrite byte_unsigned_of_Z_small by lia.
      destruct (Z.ltb_spec (Buffer.byteLength payload) 128).
      * now rewrite shiftr7_small by lia.
      * now rewrite shiftr7_large by lia.
    + rewrite createFrame_long in Hc by lia. discriminate.
Qed.

(** C6, as amended.  For every payload of at most 127 bytes and every
    options value, [createFrame] returns a byte sequence whose mask bit
    (bit 7 of the second byte) is 0. *)
Theorem createFrame_unmasked (payload : Buffer.t) (options : ICreateFrameOptions.t) :
  Buffer.byteLength payload <= 127 ->
  exists rawFrame,
    createFrame payload options = ok rawFrame /\ mask_bit rawFrame = Some 0.
Proof.
  intros Hle.
  assert (Hret : exists rawFrame, createFrame payload options = ok rawFrame).
  { destruct (Z.eq_dec (Buffer.byteLength payload) 126) as [H126 | H126].
    - rewrite createFrame_126 by assumption. eauto.
    - rewrite createFrame_short by lia. eauto. }
  destruct Hret as [rawFrame Hc]. exists rawFrame. split; [exact Hc |].
  rewrite (createFrame_mask_bit _ _ _ Hc).
  now destruct (Z.ltb_spec (Buffer.byteLength payload) 128); [| lia].
Qed.

Lemma createFrame_unmasked_witness :
  exists rawFrame,
    createFrame [Byte.x68; Byte.x69] (ICreateFrameOptions.Build 1 true) = ok rawFrame
    /\ mask_bit rawFrame = Some 0.
Proof.
  apply (createFrame_unmasked [Byte.x68; Byte.x69] (ICreateFrameOptions.Build 1 true)).
  vm_compute. discriminate.
Defined.

(** C6 as stated fails on a payload of 128 bytes: its length is written
    into the second byte as it is, and 128 is the mask bit. *)
Lemma createFrame_128_mask_bit_set :
  exists rawFrame,
    createFrame (replicate 128 Byte.x00) (ICreateFrameOptions.Build 1 true)
    = ok rawFrame
    /\ rawFrame !! 1%nat = Some Byte.x80
    /\ mask_bit rawFrame = Some 1.
Proof. eexists. repeat split; vm_compute; reflexivity. Qed.

(** C7, as amended.  For every payload of at most 255 bytes and every
    options value, [createFrame] returns a byte sequence of exactly
    [2 + (2 if payload.length == 126 else 0) + payload.length] bytes, and
    when the payload is not 126 bytes long the payload bytes follow the
    2-byte header verbatim. *)
Theorem createFrame_length (payload : Buffer.t) (options : ICreateFrameOptions.t) :
  Buffer.byteLength payload <= 255 ->
  exists rawFrame,
    createFrame payload options = ok rawFrame
    /\ Buffer.byteLength rawFrame
       = 2 + (if Buffer.byteLength payload =? 126 then 2 else 0)
         + Buffer.byteLength payload
    /\ (Buffer.byteLength payload <> 126 -> drop 2 rawFrame = payload).
Proof.
  intros Hle.
  destruct (Z.eqb_spec (Buffer.byteLength payload) 126) as [H126 | H126].
  - rewrite createFrame_126 by assumption. eexists. split; [reflexivity |].
    split; [| contradiction].
    unfold Buffer.byteLength in *. cbn [length]. rewrite length_app. simpl. lia.
  - rewrite createFrame_short by assumption. eexists. split; [reflexivity |].
    split; [| reflexivity].
    unfold Buffer.byteLength. cbn [length]. lia.
Qed.

Lemma createFrame_length_witness :
  exists rawFrame,
    createFrame [Byte.x68; Byte.x69] (ICreateFrameOptions.Build 2 false) = ok rawFrame
    /\ Buffer.byteLength rawFrame
       = 2 + (if Buffer.byteLength [Byte.x68; Byte.x69] =? 126 then 2 else 0)
         + Buffer.byteLength [Byte.x68; Byte.x69]
    /\ (Buffer.byteLength [Byte.x68; Byte.x69] <> 126
        -> drop 2 rawFrame = [Byte.x68; Byte.x69]).
Proof.
  apply (createFrame_length [Byte.x68; Byte.x69] (ICreateFrameOptions.Build 2 false)).
  vm_compute. discriminate.
Defined.

(** C7 as stated fails on a payload of 256 bytes: [createFrame] returns no
    byte sequence, it throws when it writes the length into the second
    byte. *)
Lemma createFrame_256_throws :
  createFrame (replicate 256 Byte.x00) (ICreateFrameOptions.Build 1 true)
  = throw RangeError
  /\ ~ exists rawFrame,
         createFrame (replicate 256 Byte.x00) (ICreateFrameOptions.Build 1 true)
         = ok rawFrame.
Proof.
  assert (H : createFrame (replicate 256 Byte.x00) (ICreateFrameOptions.Build 1 true)
              = throw RangeError) by (vm_compute; reflexivity).
  split; [exact H |]. intros [rawFrame Hr]. rewrite H in Hr. discriminate.
Qed.

(** ** The decoder, step by step *)

Lemma readFragmentedBuffer_idle (chunk : Buffer.t) (this : WebsocketParser) :
  fragmentedFrame this = None ->
  readFragmentedBuffer chunk this = (ok chunk, this).
Proof.
  intros Hidle. unfold readFragmentedBuffer, bind, get_fragmentedFrame.
  cbn [ok]. now rewrite Hidle.
Qed.

Lemma readFrame_idle (chunk : Buffer.t) (this : WebsocketParser) :
  fragmentedFrame this = None ->
  readFrame chunk this = parseFrame chunk this.
Proof.
  intros Hidle. unfold readFrame, bind.
  now rewrite readFragmentedBuffer_idle.
Qed.

(** [parseFrame], outcome by outcome. *)
Lemma parseFrame_cases (chunk : Buffer.t) (this : WebsocketParser) :
  parseFrame chunk this
  = if Buffer.byteLength chunk <=? 0 then (ok chunk, this)
    else match parseHeader chunk with
         | inl e => (throw e, this)
         | inr h =>
             let rawPayload :=
               Buffer.slice chunk (Header.byteOffset h)
                            (Some (Header.byteOffset h + Header.payloadLen h)) in
             if Buffer.byteLength rawPayload <? Header.payloadLen h
             then (ok [], mkParser (parsedFrames this)
                                   (Some (fragment_of_header h rawPayload)))
             else match unmask_if (Header.mask h) rawPayload
                                  (Header.payloadLen h) (Header.maskingKey h) with
                  | inl e => (throw e, this)
                  | inr payload =>
                      (ok (Buffer.slice chunk
                             (Header.byteOffset h + Header.payloadLen h) None),
                       mkParser (parsedFrames this ++ [frame_of_header h payload])
                                (fragmentedFrame this))
                  end
         end.
Proof.
  unfold parseFrame.
  destruct (Buffer.byteLength chunk <=? 0); [reflexivity |].
  unfold bind, lift. destruct (parseHeader chunk) as [e | h]; [reflexivity |].
  cbv zeta.
  destruct (Buffer.byteLength _ <? Header.payloadLen h); [reflexivity |].
  unfold unmask_if.
  destruct (if Header.mask h then _ else _); reflexivity.
Qed.

(** [readFragmentedBuffer] on a pending frame whose buffered bytes do not
    exceed its payload length. *)
Lemma readFragmentedBuffer_pending
      (chunk : Buffer.t) (this : WebsocketParser) (ff : IFragmentedFrame.t) :
  fragmentedFrame this = Some ff ->
  Buffer.byteLength (IFragmentedFrame.rawPayload ff) <= IFragmentedFrame.payloadLen ff ->
  let remainingByteLen :=
    IFragmentedFrame.payloadLen ff
    - Buffer.byteLength (IFragmentedFrame.rawPayload ff) in
  readFragmentedBuffer chunk this
  = if remainingByteLen >? Buffer.byteLength chunk
    then (ok [],
          mkParser (parsedFrames this)
                   (Some (IFragmentedFrame.set_rawPayload
                            ff (IFragmentedFrame.rawPayload ff ++ chunk))))
    else
      let raw := IFragmentedFrame.rawPayload ff
                 ++ take (Z.to_nat remainingByteLen) chunk in
      match unmask_if (IFragmentedFrame.mask ff) raw
                      (IFragmentedFrame.payloadLen ff)
                      (IFragmentedFrame.maskingKey ff) with
      | inl e => (throw e,
                  mkParser (parsedFrames this)
                           (Some (IFragmentedFrame.set_rawPayload ff raw)))
      | inr payload =>
          (ok (drop (Z.to_nat remainingByteLen) chunk),
           mkParser (parsedFrames this ++ [frame_of_fragment ff payload]) None)
      end.
Proof.
  intros Hpending Hle remainingByteLen.
  unfold readFragmentedBuffer, bind, get_fragmentedFrame. cbn [ok].
  rewrite Hpending. fold remainingByteLen.
  destruct (Z.gtb_spec remainingByteLen (Buffer.byteLength chunk)) as [Hgt | Hngt].
  - unfold lift. now rewrite concat_pair by reflexivity.
  - assert (Hrem : 0 <= remainingByteLen) by (unfold remainingByteLen; lia).
    rewrite slice_range by lia. rewrite Z.sub_0_r.
    change (Z.to_nat 0) with 0%nat. rewrite drop_0.
    unfold lift. rewrite concat_pair.
    2:{ unfold remainingByteLen, Buffer.byteLength in *. rewrite length_take. lia. }
    cbn [ok set_fragmentedFrame parsedFrames fragmentedFrame].
    unfold unmask_if.
    destruct (if IFragmentedFrame.mask ff then _ else _) as [e | payload];
      [reflexivity |].
    cbn [push_frame set_fragmentedFrame ret parsedFrames fragmentedFrame ok].
    now rewrite slice_from by lia.
Qed.

(** ** The header *)

Lemma readUInt8_bounds (buf : Buffer.t) (offset v : Z) :
  Buffer.readUInt8 buf offset = ok v -> 0 <= v <= 255.
Proof.
  unfold Buffer.readUInt8. destruct (Buffer.get buf offset); [| discriminate].
  intros [= <-]. apply byte_unsigned_bounds.
Qed.

Lemma readUInt16BE_bounds (buf : Buffer.t) (offset v : Z) :
  Buffer.readUInt16BE buf offset = ok v -> 0 <= v <= 65535.
Proof.
  unfold Buffer.readUInt16BE.
  destruct (Buffer.get buf offset) as [a |]; [| discriminate].
  destruct (Buffer.get buf (offset + 1)) as [b |]; [| discriminate].
  intros [= <-].
  pose proof (byte_unsigned_bounds a). pose proof (byte_unsigned_bounds b). lia.
Qed.

Lemma readUInt32BE_bounds (buf : Buffer.t) (offset v : Z) :
  Buffer.readUInt32BE buf offset = ok v -> 0 <= v < 2 ^ 32.
Proof.
  unfold Buffer.readUInt32BE.
  destruct (Buffer.get buf offset) as [a |]; [| discriminate].
  destruct (Buffer.get buf (offset + 1)) as [b |]; [| discriminate].
  destruct (Buffer.get buf (offset + 2)) as [c |]; [| discriminate].
  destruct (Buffer.get buf (offset + 3)) as [d |]; [| discriminate].
  intros [= <-].
  pose proof (byte_unsigned_bounds a). pose proof (byte_unsigned_bounds b).
  pose proof (byte_unsigned_bounds c). pose proof (byte_unsigned_bounds d). lia.
Qed.

(** The length field yields a length that is not negative and moves the
    offset forward by 0, 2, 8 or 10. *)
Lemma parseLength_bounds (chunk : Buffer.t) (payloadLen byteOffset len off : Z) :
  parseLength chunk payloadLen byteOffset = ok (len, off) ->
  0 <= payloadLen ->
  0 <= len /\ byteOffset <= off <= byteOffset + 10.
Proof.
  unfold parseLength. intros Hp Hnn.
  destruct (payloadLen =? 126).
  - destruct (Buffer.readUInt16BE chunk byteOffset) as [e | len16] eqn:H16;
      [discriminate |].
    apply readUInt16BE_bounds in H16. cbn [rbind ok fst snd] in Hp.
    destruct (len16 =? 127).
    + destruct (Buffer.readUInt32BE chunk (byteOffset + 2)) as [e | f32];
        [discriminate |].
      destruct (Buffer.readUInt32BE chunk (byteOffset + 2 + 4)) as [e | s32] eqn:H32;
        [discriminate |].
      apply readUInt32BE_bounds in H32. cbn [rbind ok] in Hp.
      destruct (negb (f32 =? 0)); [discriminate |].
      injection Hp as <- <-. lia.
    + injection Hp as <- <-. lia.
  - cbn [rbind ok fst snd] in Hp.
    destruct (payloadLen =? 127).
    + destruct (Buffer.readUInt32BE chunk byteOffset) as [e | f32];
        [discriminate |].
      destruct (Buffer.readUInt32BE chunk (byteOffset + 4)) as [e | s32] eqn:H32;
        [discriminate |].
      apply readUInt32BE_bounds in H32. cbn [rbind ok] in Hp.
      destruct (negb (f32 =? 0)); [discriminate |].
      injection Hp as <- <-. lia.
    + injection Hp as <- <-. lia.
Qed.

(** A header that parses: what [parseHeader] went through. *)
Lemma parseHeader_inv (chunk : Buffer.t) (h : Header.t) :
  parseHeader chunk = ok h ->
  exists firstByte secondByte len off,
    Buffer.readUInt8 chunk 0 = ok firstByte
    /\ Z.land (Z.shiftr firstByte 6) 1 = 0
    /\ Z.land (Z.shiftr firstByte 5) 1 = 0
    /\ Z.land (Z.shiftr firstByte 4) 1 = 0
    /\ Buffer.readUInt8 chunk 1 = ok secondByte
    /\ parseLength chunk (Z.land secondByte 127) 2 = ok (len, off)
    /\ h = Header.Build
             (negb (Z.land (Z.shiftr firstByte 7) 1 =? 0)) 0 0 0
             (Z.land firstByte 15)
             (negb (Z.land (Z.shiftr secondByte 7) 1 =? 0))
             len
             (if negb (Z.land (Z.shiftr secondByte 7) 1 =? 0)
              then Buffer.slice chunk off (Some (off + 4))
              else [Byte.x00; Byte.x00; Byte.x00; Byte.x00])
             (if negb (Z.land (Z.shiftr secondByte 7) 1 =? 0)
              then off + 4 else off).
Proof.
  unfold parseHeader. intros Hp.
  destruct (Buffer.readUInt8 chunk 0) as [e | firstByte] eqn:Hb0; [discriminate |].
  cbn [rbind ok] in Hp.
  destruct (Z.eqb_spec (Z.land (Z.shiftr firstByte 6) 1) 0) as [H1 | H1];
    [| discriminate].
  destruct (Z.eqb_spec (Z.land (Z.shiftr firstByte 5) 1) 0) as [H2 | H2];
    [| discriminate].
  destruct (Z.eqb_spec (Z.land (Z.shiftr firstByte 4) 1) 0) as [H3 | H3];
    [| discriminate].
  cbn [negb orb] in Hp. change (0 + 1) with 1 in Hp.
  destruct (Buffer.readUInt8 chunk 1) as [e | secondByte] eqn:Hb1; [discriminate |].
  cbn [rbind ok] in Hp. change (1 + 1) with 2 in Hp.
  destruct (parseLength chunk (Z.land secondByte 127) 2) as [e | [len off]] eqn:Hpl;
    [discriminate |].
  cbn [rbind ok fst snd Buffer.alloc] in Hp.
  change (Buffer.alloc 4) with (ok [Byte.x00; Byte.x00; Byte.x00; Byte.x00]) in Hp.
  cbn [rbind ok] in Hp. injection Hp as <-.
  exists firstByte, secondByte, len, off.
  rewrite H1, H2, H3. repeat split; reflexivity || assumption.
Qed.

(** The header of a chunk whose first byte passes the RSV check. *)
Lemma parseHeader_eq (chunk : Buffer.t) (firstByte secondByte : Z) :
  Buffer.readUInt8 chunk 0 = ok firstByte ->
  Z.land (Z.shiftr firstByte 6) 1 = 0 ->
  Z.land (Z.shiftr firstByte 5) 1 = 0 ->
  Z.land (Z.shiftr firstByte 4) 1 = 0 ->
  Buffer.readUInt8 chunk 1 = ok secondByte ->
  parseHeader chunk
  = match parseLength chunk (Z.land secondByte 127) 2 with
    | inl e => throw e
    | inr (len, off) =>
        ok (Header.Build
              (negb (Z.land (Z.shiftr firstByte 7) 1 =? 0)) 0 0 0
              (Z.land firstByte 15)
              (negb (Z.land (Z.shiftr secondByte 7) 1 =? 0))
              len
              (if negb (Z.land (Z.shiftr secondByte 7) 1 =? 0)
               then Buffer.slice chunk off (Some (off + 4))
               else [Byte.x00; Byte.x00; Byte.x00; Byte.x00])
              (if negb (Z.land (Z.shiftr secondByte 7) 1 =? 0)
               then off + 4 else off))
    end.
Proof.
  intros Hb0 H1 H2 H3 Hb1. unfold parseHeader.
  rewrite Hb0. cbn [rbind ok]. rewrite H1, H2, H3.
  change (negb (0 =? 0) || negb (0 =? 0) || negb (0 =? 0)) with false. cbv iota.
  change (0 + 1) with 1. rewrite Hb1. cbn [rbind ok]. change (1 + 1) with 2.
  destruct (parseLength chunk (Z.land secondByte 127) 2) as [e | [len off]];
    reflexivity.
Qed.

Lemma parseHeader_bounds (chunk : Buffer.t) (h : Header.t) :
  parseHeader chunk = ok h ->
  0 <= Header.payloadLen h /\ 2 <= Header.byteOffset h <= 16.
Proof.
  intros Hp.
  destruct (parseHeader_inv _ _ Hp)
    as (firstByte & secondByte & len & off & _ & _ & _ & _ & H2 & Hlen & ->).
  apply parseLength_bounds in Hlen; [| apply Z.land_nonneg; lia].
  cbn [Header.payloadLen Header.byteOffset].
  destruct (Z.land (Z.shiftr secondByte 7) 1 =? 0); cbn [negb]; lia.
Qed.

(** [x >> n & 1] is bit [n] of [x]. *)
Lemma land_shiftr_1 (x n : Z) :
  Z.land (Z.shiftr x n) 1 = if Z.testbit x n then 1 else 0.
Proof.
  change 1 with (Z.ones 1) at 1. rewrite Z.land_ones by lia.
  change (2 ^ 1) with 2. rewrite Zmod_odd.
  destruct (Z.testbit x n) eqn:Hb.
  - rewrite Z.testbit_odd in Hb. now rewrite Hb.
  - rewrite Z.testbit_odd in Hb. now rewrite Hb.
Qed.

(** A first byte with one of the bits 6, 5, 4 set is refused before
    anything else of the chunk is read. *)
Lemma parseHeader_rsv (firstByte : byte) (rest : Buffer.t) :
  Z.testbit (byte.unsigned firstByte) 6 = true
  \/ Z.testbit (byte.unsigned firstByte) 5 = true
  \/ Z.testbit (byte.unsigned firstByte) 4 = true ->
  parseHeader (firstByte :: rest) = throw (WebSocketError PROTOCOL_ERROR).
Proof.
  intros Hrsv. unfold parseHeader.
  change (Buffer.readUInt8 (firstByte :: rest) 0) with (ok (byte.unsigned firstByte)).
  cbn [rbind ok]. rewrite !land_shiftr_1.
  destruct Hrsv as [-> | [-> | ->]]; cbn [Z.eqb negb orb].
  - reflexivity.
  - now rewrite orb_true_r.
  - now rewrite orb_true_r.
Qed.

(** C4.  A chunk whose first byte has the RSV1, RSV2 or RSV3 bit set
    (bits 6, 5, 4), read by a parser with no pending partial frame, makes
    [readFrame] throw the protocol error and leaves the parser as it was:
    the queue of decoded frames is unchanged and no pending frame is
    created. *)
Theorem readFrame_rsv_rejected
        (this : WebsocketParser) (firstByte : byte) (rest : Buffer.t) :
  fragmentedFrame this = None ->
  Z.testbit (byte.unsigned firstByte) 6 = true
  \/ Z.testbit (byte.unsigned firstByte) 5 = true
  \/ Z.testbit (byte.unsigned firstByte) 4 = true ->
  readFrame (firstByte :: rest) this
  = (throw (WebSocketError PROTOCOL_ERROR), this)
  /\ parsedFrames (snd (readFrame (firstByte :: rest) this)) = parsedFrames this
  /\ fragmentedFrame (snd (readFrame (firstByte :: rest) this)) = None.
Proof.
  intros Hidle Hrsv.
  assert (H : readFrame (firstByte :: rest) this
              = (throw (WebSocketError PROTOCOL_ERROR), this)).
  { rewrite readFrame_idle by assumption. rewrite parseFrame_cases.
    destruct (Z.leb_spec (Buffer.byteLength (firstByte :: rest)) 0) as [Hle | _].
    - unfold Buffer.byteLength in Hle. cbn [length] in Hle. lia.
    - now rewrite parseHeader_rsv. }
  rewrite H. auto.
Qed.

Lemma readFrame_rsv_rejected_witness :
  readFrame [Byte.xc1; Byte.x00] newParser
  = (throw (WebSocketError PROTOCOL_ERROR), newParser)
  /\ parsedFrames (snd (readFrame [Byte.xc1; Byte.x00] newParser))
     = parsedFrames newParser
  /\ fragmentedFrame (snd (readFrame [Byte.xc1; Byte.x00] newParser)) = None.
Proof.
  apply (readFrame_rsv_rejected newParser Byte.xc1 [Byte.x00]).
  - reflexivity.
  - left. vm_compute. reflexivity.
Defined.

(** ** The 8-byte length field *)

(** The payload of a frame never makes [readFrame] throw: the length a
    header carries is not negative. *)
Lemma unmask_if_total (mask : bool) (rawPayload maskingKey : Buffer.t) (payloadLen : Z) :
  0 <= payloadLen ->
  Buffer.byteLength rawPayload = payloadLen ->
  exists payload,
    unmask_if mask rawPayload payloadLen maskingKey = ok payload
    /\ Buffer.byteLength payload = payloadLen.
Proof.
  intros Hnn Hlen. unfold unmask_if. destruct mask.
  - rewrite unmask_unmasked by assumption. eexists. split; [reflexivity |].
    unfold Buffer.byteLength. rewrite length_unmasked. lia.
  - eauto.
Qed.

(** The payload region cut out of a chunk is never longer than the length
    asked for. *)
Lemma slice_payload_length (chunk : Buffer.t) (off len : Z) :
  0 <= off -> 0 <= len ->
  Buffer.byteLength (Buffer.slice chunk off (Some (off + len))) <= len.
Proof.
  intros Hoff Hlen. rewrite slice_range by lia.
  unfold Buffer.byteLength. rewrite length_take. lia.
Qed.

(** C5.  A chunk read by a parser with no pending partial frame, whose
    header passes the RSV check and declares the 7-bit length 127, followed
    by the 8 bytes of the extended length: if the first 32-bit half is not
    zero [readFrame] throws the unsupported-length error (and leaves the
    parser as it was); if it is zero, the payload length is the second half
    and the offset advances by 8, from 2 to 10, before the masking key is
    read, and the frame [readFrame] stores or pushes carries that length. *)
Theorem readFrame_length_127
        (this : WebsocketParser) (b0 b1 e0 e1 e2 e3 e4 e5 e6 e7 : byte)
        (rest : Buffer.t) :
  let chunk := b0 :: b1 :: e0 :: e1 :: e2 :: e3 :: e4 :: e5 :: e6 :: e7 :: rest in
  let first32bits := uint32BE e0 e1 e2 e3 in
  let second32bits := uint32BE e4 e5 e6 e7 in
  fragmentedFrame this = None ->
  Z.testbit (byte.unsigned b0) 6 = false ->
  Z.testbit (byte.unsigned b0) 5 = false ->
  Z.testbit (byte.unsigned b0) 4 = false ->
  Z.land (byte.unsigned b1) 127 = 127 ->
  (first32bits <> 0 ->
   parseLength chunk 127 2 = throw unsupported_length
   /\ readFrame chunk this = (throw unsupported_length, this))
  /\ (first32bits = 0 ->
      parseLength chunk 127 2 = ok (second32bits, 2 + 8)
      /\ exists h,
          parseHeader chunk = ok h
          /\ Header.payloadLen h = second32bits
          /\ Header.byteOffset h = 2 + 8 + (if Header.mask h then 4 else 0)
          /\ ((exists rawPayload,
                  readFrame chunk this
                  = (ok [], mkParser (parsedFrames this)
                                     (Some (fragment_of_header h rawPayload))))
              \/ (exists payload remainingBuff,
                     readFrame chunk this
                     = (ok remainingBuff,
                        mkParser (parsedFrames this ++ [frame_of_header h payload])
                                 None)))).
Proof.
  intros chunk first32bits second32bits Hidle H6 H5 H4 H127.
  assert (Hfirst : Buffer.readUInt32BE chunk 2 = ok first32bits) by reflexivity.
  assert (Hsecond : Buffer.readUInt32BE chunk (2 + 4) = ok second32bits) by reflexivity.
  assert (Hlen : parseLength chunk 127 2
                 = if negb (first32bits =? 0) then throw unsupported_length
                   else ok (second32bits, 2 + 8)).
  { unfold parseLength. change (127 =? 126) with false. cbn [rbind ok fst snd].
    change (127 =? 127) with true. cbv iota.
    rewrite Hfirst. cbn [rbind ok]. rewrite Hsecond. reflexivity. }
  assert (Hhdr : parseHeader chunk
                 = match parseLength chunk 127 2 with
                   | inl e => throw e
                   | inr (len, off) =>
                       ok (Header.Build
                             (negb (Z.land (Z.shiftr (byte.unsigned b0) 7) 1 =? 0))
                             0 0 0 (Z.land (byte.unsigned b0) 15)
                             (negb (Z.land (Z.shiftr (byte.unsigned b1) 7) 1 =? 0))
                             len
                             (if negb (Z.land (Z.shiftr (byte.unsigned b1) 7) 1 =? 0)
                              then Buffer.slice chunk off (Some (off + 4))
                              else [Byte.x00; Byte.x00; Byte.x00; Byte.x00])
                             (if negb (Z.land (Z.shiftr (byte.unsigned b1) 7) 1 =? 0)
                              then off + 4 else off))
                   end).
  { rewrite <- H127.
    apply parseHeader_eq; try reflexivity; rewrite land_shiftr_1.
    - now rewrite H6.
    - now rewrite H5.
    - now rewrite H4. }
  split; intros Hhalf.
  - destruct (Z.eqb_spec first32bits 0) as [| _]; [contradiction |].
    cbn [negb] in Hlen. split; [exact Hlen |].
    rewrite readFrame_idle by assumption. rewrite parseFrame_cases.
    change (Buffer.byteLength chunk <=? 0) with false. cbv iota.
    rewrite Hhdr, Hlen. reflexivity.
  - destruct (Z.eqb_spec first32bits 0) as [_ |]; [| contradiction].
    cbn [negb] in Hlen. split; [exact Hlen |].
    rewrite Hlen in Hhdr. cbn [ok] in Hhdr.
    eexists. split; [exact Hhdr |].
    split; [reflexivity |].
    split; [cbn [Header.byteOffset Header.mask];
            destruct (Z.land (Z.shiftr (byte.unsigned b1) 7) 1 =? 0);
            cbn [negb]; lia |].
    rewrite readFrame_idle by assumption. rewrite parseFrame_cases.
    change (Buffer.byteLength chunk <=? 0) with false. cbv iota.
    rewrite Hhdr.
    set (h := Header.Build _ _ _ _ _ _ _ _ _).
    destruct (parseHeader_bounds _ _ Hhdr) as [Hnn Hoff]. fold h in Hnn, Hoff.
    cbv beta iota zeta delta [ok].
    destruct (Z.ltb_spec
                (Buffer.byteLength
                   (Buffer.slice chunk (Header.byteOffset h)
                      (Some (Header.byteOffset h + Header.payloadLen h))))
                (Header.payloadLen h)) as [Hshort | Hfull].
    + left. eexists. reflexivity.
    + right.
      pose proof (slice_payload_length chunk (Header.byteOffset h)
                    (Header.payloadLen h) ltac:(lia) Hnn) as Hmost.
      destruct (unmask_if_total (Header.mask h)
                  (Buffer.slice chunk (Header.byteOffset h)
                     (Some (Header.byteOffset h + Header.payloadLen h)))
                  (Header.maskingKey h) (Header.payloadLen h) Hnn ltac:(lia))
        as (payload & -> & _).
      rewrite Hidle. eauto.
Qed.

Lemma readFrame_length_127_witness :
  readFrame [Byte.x81; Byte.x7f; Byte.x00; Byte.x00; Byte.x00; Byte.x01;
             Byte.x00; Byte.x00; Byte.x00; Byte.x05] newParser
  = (throw unsupported_length, newParser)
  /\ parseLength [Byte.x81; Byte.x7f; Byte.x00; Byte.x00; Byte.x00; Byte.x00;
                  Byte.x00; Byte.x00; Byte.x00; Byte.x05; Byte.x2a] 127 2
     = ok (5, 2 + 8).
Proof.
  split.
  - apply (readFrame_length_127 newParser Byte.x81 Byte.x7f
             Byte.x00 Byte.x00 Byte.x00 Byte.x01
             Byte.x00 Byte.x00 Byte.x00 Byte.x05 []);
      try reflexivity.
    vm_compute. discriminate.
  - apply (readFrame_length_127 newParser Byte.x81 Byte.x7f
             Byte.x00 Byte.x00 Byte.x00 Byte.x00
             Byte.x00 Byte.x00 Byte.x00 Byte.x05 [Byte.x2a]);
      reflexivity.
Defined.

(** ** A header read from a prefix of the chunk *)

Lemma get_take (buf : Buffer.t) (k : nat) (i : Z) :
  i < Z.of_nat k -> Buffer.get (take k buf) i = Buffer.get buf i.
Proof.
  intros Hi. unfold Buffer.get. destruct (Z.ltb_spec i 0); [reflexivity |].
  apply lookup_take_lt. lia.
Qed.

Lemma readUInt8_take (buf : Buffer.t) (k : nat) (offset : Z) :
  offset < Z.of_nat k ->
  Buffer.readUInt8 (take k buf) offset = Buffer.readUInt8 buf offset.
Proof. intros H. unfold Buffer.readUInt8. now rewrite get_take. Qed.

Lemma readUInt16BE_take (buf : Buffer.t) (k : nat) (offset : Z) :
  offset + 1 < Z.of_nat k ->
  Buffer.readUInt16BE (take k buf) offset = Buffer.readUInt16BE buf offset.
Proof. intros H. unfold Buffer.readUInt16BE. now rewrite !get_take by lia. Qed.

Lemma readUInt32BE_take (buf : Buffer.t) (k : nat) (offset : Z) :
  offset + 3 < Z.of_nat k ->
  Buffer.readUInt32BE (take k buf) offset = Buffer.readUInt32BE buf offset.
Proof. intros H. unfold Buffer.readUInt32BE. now rewrite !get_take by lia. Qed.

Lemma slice_take (buf : Buffer.t) (k : nat) (s e : Z) :
  0 <= s -> 0 <= e -> e <= Z.of_nat k ->
  Buffer.slice (take k buf) s (Some e) = Buffer.slice buf s (Some e).
Proof.
  intros Hs He Hk. rewrite !slice_range by assumption.
  rewrite skipn_firstn_comm, take_take. f_equal. lia.
Qed.

(** The length field read from a prefix that holds it. *)
Lemma parseLength_take
      (chunk : Buffer.t) (k : nat) (payloadLen byteOffset len off : Z) :
  parseLength chunk payloadLen byteOffset = ok (len, off) ->
  off <= Z.of_nat k ->
  parseLength (take k chunk) payloadLen byteOffset = ok (len, off).
Proof.
  unfold parseLength. intros Hp Hk.
  destruct (payloadLen =? 126).
  - destruct (Buffer.readUInt16BE chunk byteOffset) as [e | len16] eqn:H16;
      [discriminate |].
    cbn [rbind ok fst snd] in Hp.
    destruct (len16 =? 127) eqn:H127.
    + destruct (Buffer.readUInt32BE chunk (byteOffset + 2)) as [e | f32] eqn:Hf;
        [discriminate |].
      destruct (Buffer.readUInt32BE chunk (byteOffset + 2 + 4)) as [e | s32] eqn:Hs;
        [discriminate |].
      cbn [rbind ok] in Hp.
      destruct (negb (f32 =? 0)) eqn:Hz; [discriminate |].
      injection Hp as <- <-.
      rewrite readUInt16BE_take, H16 by lia. cbn [rbind ok fst snd].
      rewrite H127, !readUInt32BE_take, Hf, Hs by lia. cbn [rbind ok].
      now rewrite Hz.
    + injection Hp as <- <-.
      rewrite readUInt16BE_take, H16 by lia. cbn [rbind ok fst snd].
      now rewrite H127.
  - cbn [rbind ok fst snd] in Hp |- *.
    destruct (payloadLen =? 127).
    + destruct (Buffer.readUInt32BE chunk byteOffset) as [e | f32] eqn:Hf;
        [discriminate |].
      destruct (Buffer.readUInt32BE chunk (byteOffset + 4)) as [e | s32] eqn:Hs;
        [discriminate |].
      cbn [rbind ok] in Hp.
      destruct (negb (f32 =? 0)) eqn:Hz; [discriminate |].
      injection Hp as <- <-.
      rewrite !readUInt32BE_take, Hf, Hs by lia. cbn [rbind ok].
      now rewrite Hz.
    + exact Hp.
Qed.

(** The header read from a prefix of the chunk that holds all of it. *)
Lemma parseHeader_take (chunk : Buffer.t) (k : nat) (h : Header.t) :
  parseHeader chunk = ok h ->
  Header.byteOffset h <= Z.of_nat k ->
  parseHeader (take k chunk) = ok h.
Proof.
  intros Hp Hk.
  destruct (parseHeader_inv _ _ Hp)
    as (firstByte & secondByte & len & off & Hb0 & H1 & H2 & H3 & Hb1 & Hlen & Hh).
  pose proof (parseLength_bounds _ _ _ _ _ Hlen ltac:(apply Z.land_nonneg; lia))
    as [_ Hoff].
  assert (Hoffk : off <= Z.of_nat k).
  { rewrite Hh in Hk. cbn [Header.byteOffset] in Hk.
    destruct (Z.land (Z.shiftr secondByte 7) 1 =? 0); cbn [negb] in Hk; lia. }
  rewrite (parseHeader_eq (take k chunk) firstByte secondByte);
    try assumption.
  - rewrite (parseLength_take _ _ _ _ _ _ Hlen Hoffk). rewrite Hh. f_equal.
    f_equal.
    destruct (Z.land (Z.shiftr secondByte 7) 1 =? 0) eqn:Hm; cbn [negb];
      [reflexivity |].
    rewrite Hh in Hk. cbn [Header.byteOffset negb] in Hk.
    cbn [negb] in Hk. apply slice_take; lia.
  - rewrite readUInt8_take by lia. exact Hb0.
  - rewrite readUInt8_take by lia. exact Hb1.
Qed.

(** ** One frame, in one chunk or in two *)

Lemma readFrame_empty_idle (this : WebsocketParser) :
  fragmentedFrame this = None -> readFrame [] this = (ok [], this).
Proof. intros Hidle. now rewrite readFrame_idle. Qed.

Lemma unmask_if_length (mask : bool) (rawPayload maskingKey payload : Buffer.t)
      (payloadLen : Z) :
  unmask_if mask rawPayload payloadLen maskingKey = ok payload ->
  Buffer.byteLength rawPayload = payloadLen ->
  Buffer.byteLength payload = payloadLen.
Proof.
  unfold unmask_if. destruct mask.
  - intros Hu _. now apply unmask_length in Hu.
  - now intros [= <-].
Qed.

(** What a byte sequence that is the wire form of one frame looks like: a
    header, then exactly the payload the header announces, or less than a
    whole masking key when there is no payload. *)
Lemma complete_frame_inv (s : Buffer.t) (frame : IFrame.t) :
  complete_frame s frame ->
  exists h payload,
    parseHeader s = ok h
    /\ Buffer.byteLength (drop (Z.to_nat (Header.byteOffset h)) s)
       = Header.payloadLen h
    /\ unmask_if (Header.mask h) (drop (Z.to_nat (Header.byteOffset h)) s)
                 (Header.payloadLen h) (Header.maskingKey h) = ok payload
    /\ Buffer.byteLength payload = Header.payloadLen h
    /\ frame = frame_of_header h payload.
Proof.
  unfold complete_frame. rewrite readFrame_idle by reflexivity.
  rewrite parseFrame_cases.
  destruct (Buffer.byteLength s <=? 0); [discriminate |].
  destruct (parseHeader s) as [e | h] eqn:Hh; [discriminate |].
  destruct (parseHeader_bounds _ _ Hh) as [Hnn Hoff].
  cbv zeta.
  pose proof (slice_payload_length s (Header.byteOffset h) (Header.payloadLen h)
                ltac:(lia) Hnn) as Hmost.
  destruct (Z.ltb_spec
              (Buffer.byteLength
                 (Buffer.slice s (Header.byteOffset h)
                               (Some (Header.byteOffset h + Header.payloadLen h))))
              (Header.payloadLen h)) as [Hshort | Hfull]; [discriminate |].
  destruct (unmask_if _ _ _ _) as [e | payload] eqn:Hu; [discriminate |].
  intros [= Hrest <-].
  rewrite slice_from in Hrest by lia.
  rewrite slice_range in Hu, Hfull, Hmost by lia.
  replace (Header.byteOffset h + Header.payloadLen h - Header.byteOffset h)
    with (Header.payloadLen h) in Hu, Hfull, Hmost by lia.
  assert (Hall : take (Z.to_nat (Header.payloadLen h))
                      (drop (Z.to_nat (Header.byteOffset h)) s)
                 = drop (Z.to_nat (Header.byteOffset h)) s).
  { apply take_ge. rewrite length_drop.
    apply (f_equal length) in Hrest. rewrite length_drop in Hrest.
    cbn [length] in Hrest. lia. }
  rewrite Hall in Hu, Hfull, Hmost.
  exists h, payload. repeat split.
  - lia.
  - exact Hu.
  - apply (unmask_if_length _ _ _ _ _ Hu). lia.
Qed.

(** C2, as amended.  For every byte sequence that encodes one complete
    frame, and for every split position that is 0, or lies between the end
    of the header and the end of the sequence, feeding the two chunks to a
    new parser, [readFrame] on each, leaves exactly what feeding the whole
    sequence in one call leaves: the same single frame, all fields equal,
    and nothing pending.  The end of the header is [frameLen - payloadLen]
    of the frame. *)
Theorem split_after_header (s : Buffer.t) (frame : IFrame.t) (k : nat) :
  complete_frame s frame ->
  k = 0%nat \/ k = length s
  \/ (IFrame.frameLen frame - IFrame.payloadLen frame <= Z.of_nat k
      /\ (k <= length s)%nat) ->
  readFrames [s] newParser = (ok tt, mkParser [frame] None)
  /\ readFrames [take k s; drop k s] newParser = (ok tt, mkParser [frame] None).
Proof.
  intros Hs Hk.
  assert (Hwhole : readFrames [s] newParser = (ok tt, mkParser [frame] None)).
  { unfold readFrames, bind. now rewrite Hs. }
  split; [exact Hwhole |].
  destruct (Nat.eq_dec k 0%nat) as [-> | Hk0].
  { rewrite take_0, drop_0. cbn [readFrames]. unfold bind at 1.
    rewrite readFrame_empty_idle by reflexivity. exact Hwhole. }
  destruct (Nat.eq_dec k (length s)) as [-> | Hkn].
  { rewrite firstn_all, drop_all. cbn [readFrames]. unfold bind.
    rewrite Hs. now rewrite readFrame_empty_idle by reflexivity. }
  destruct Hk as [? | [? | [Hhdr Hle]]]; [contradiction .. |].
  destruct (complete_frame_inv _ _ Hs)
    as (h & payload & Hh & Hlen & Hu & Hpl & ->).
  destruct (parseHeader_bounds _ _ Hh) as [Hnn Hoff].
  cbn [frame_of_header IFrame.frameLen IFrame.payloadLen] in Hhdr.
  set (off := Header.byteOffset h) in *.
  set (len := Header.payloadLen h) in *.
  assert (Hoffk : off <= Z.of_nat k) by lia.
  unfold Buffer.byteLength in Hlen. rewrite length_drop in Hlen.
  (* the first chunk ends inside the payload *)
  assert (Hraw1 : Buffer.slice (take k s) off (Some (off + len))
                  = take (k - Z.to_nat off) (drop (Z.to_nat off) s)).
  { rewrite slice_range by lia.
    rewrite skipn_firstn_comm, take_take. f_equal. lia. }
  assert (Hfirst : readFrame (take k s) newParser
                   = (ok [],
                      mkParser []
                        (Some (fragment_of_header h
                                 (take (k - Z.to_nat off) (drop (Z.to_nat off) s)))))).
  { rewrite readFrame_idle by reflexivity. rewrite parseFrame_cases.
    destruct (Z.leb_spec (Buffer.byteLength (take k s)) 0) as [Hemp | _].
    { unfold Buffer.byteLength in Hemp. rewrite length_take in Hemp. lia. }
    rewrite (parseHeader_take _ _ _ Hh Hoffk). cbv beta iota zeta delta [ok].
    fold off len. rewrite Hraw1.
    destruct (Z.ltb_spec
                (Buffer.byteLength (take (k - Z.to_nat off) (drop (Z.to_nat off) s)))
                len) as [_ | Hfull]; [reflexivity |].
    unfold Buffer.byteLength in Hfull.
    rewrite length_take, length_drop in Hfull. lia. }
  (* the second chunk holds exactly the bytes that are missing *)
  set (ff := fragment_of_header h (take (k - Z.to_nat off) (drop (Z.to_nat off) s))) in *.
  assert (Hsecond : readFrame (drop k s) (mkParser [] (Some ff))
                    = (ok [], mkParser [frame_of_header h payload] None)).
  { unfold readFrame, bind.
    rewrite (readFragmentedBuffer_pending (drop k s) (mkParser [] (Some ff)) ff eq_refl).
    2:{ cbn [ff fragment_of_header IFragmentedFrame.rawPayload
                IFragmentedFrame.payloadLen]. fold len.
        unfold Buffer.byteLength. rewrite length_take, length_drop. lia. }
    cbn [ff fragment_of_header IFragmentedFrame.rawPayload
            IFragmentedFrame.payloadLen IFragmentedFrame.mask
            IFragmentedFrame.maskingKey parsedFrames].
    fold len.
    assert (Hrem : len - Buffer.byteLength
                           (take (k - Z.to_nat off) (drop (Z.to_nat off) s))
                   = Buffer.byteLength (drop k s)).
    { unfold Buffer.byteLength. rewrite length_take, !length_drop. lia. }
    rewrite Hrem.
    destruct (Z.gtb_spec (Buffer.byteLength (drop k s))
                         (Buffer.byteLength (drop k s))) as [? | _]; [lia |].
    cbv zeta. unfold Buffer.byteLength. rewrite !Nat2Z.id.
    rewrite firstn_all, drop_all.
    replace (take (k - Z.to_nat off) (drop (Z.to_nat off) s) ++ drop k s)
      with (drop (Z.to_nat off) s).
    2:{ rewrite <- (take_drop (k - Z.to_nat off) (drop (Z.to_nat off) s)) at 1.
        f_equal. rewrite drop_drop. f_equal. lia. }
    rewrite Hu. reflexivity. }
  cbn [readFrames]. unfold bind. rewrite Hfirst, Hsecond. reflexivity.
Qed.

Lemma split_after_header_witness :
  let s := [Byte.x81; Byte.x83; Byte.x01; Byte.x02; Byte.x03; Byte.x04;
            Byte.x69; Byte.x6b; Byte.x6a] in
  let frame := IFrame.Build true 0 0 0 1 true 3 [Byte.x68; Byte.x69; Byte.x69] 9 in
  readFrames [s] newParser = (ok tt, mkParser [frame] None)
  /\ readFrames [take 7 s; drop 7 s] newParser = (ok tt, mkParser [frame] None).
Proof.
  apply (split_after_header
           [Byte.x81; Byte.x83; Byte.x01; Byte.x02; Byte.x03; Byte.x04;
            Byte.x69; Byte.x6b; Byte.x6a]
           (IFrame.Build true 0 0 0 1 true 3 [Byte.x68; Byte.x69; Byte.x69] 9)
           7).
  - vm_compute. reflexivity.
  - right. right. split; [vm_compute; discriminate | simpl; lia].
Defined.

(** C2 as stated fails at a split position inside the header.  The two
    bytes 0x81 0x00 are a complete frame (text, final, empty payload);
    split after the first byte, the first call reads the second header byte
    past the end of its chunk and throws, and no frame is decoded. *)
Lemma split_inside_header :
  let s := [Byte.x81; Byte.x00] in
  complete_frame s (IFrame.Build true 0 0 0 1 false 0 [] 2)
  /\ (1 <= length s)%nat
  /\ readFrames [take 1 s; drop 1 s] newParser = (throw RangeError, newParser)
  /\ readFrames [take 1 s; drop 1 s] newParser <> readFrames [s] newParser.
Proof.
  repeat split; try (vm_compute; reflexivity).
  - simpl. lia.
  - vm_compute. discriminate.
Qed.

(** A split inside the masking key does not throw but decodes another
    frame: the rest of the key is taken for payload. *)
Lemma split_inside_masking_key :
  let s := [Byte.x81; Byte.x83; Byte.x01; Byte.x02; Byte.x03; Byte.x04;
            Byte.x69; Byte.x6b; Byte.x6a] in
  complete_frame s (IFrame.Build true 0 0 0 1 true 3 [Byte.x68; Byte.x69; Byte.x69] 9)
  /\ parsedFrames (snd (readFrames [take 5 s; drop 5 s] newParser))
     = [IFrame.Build true 0 0 0 1 true 3 [Byte.x05; Byte.x6b; Byte.x68] 9].
Proof. split; vm_compute; reflexivity. Qed.

(** ** The invariant of the parser *)

(** [readFragmentedBuffer] on a pending frame that misses bytes: either the
    chunk is too short and is buffered whole, or the frame is completed. *)
Lemma readFragmentedBuffer_short
      (chunk : Buffer.t) (this : WebsocketParser) (ff : IFragmentedFrame.t) :
  fragmentedFrame this = Some ff ->
  Buffer.byteLength (IFragmentedFrame.rawPayload ff) < IFragmentedFrame.payloadLen ff ->
  let remainingByteLen :=
    IFragmentedFrame.payloadLen ff
    - Buffer.byteLength (IFragmentedFrame.rawPayload ff) in
  (Buffer.byteLength chunk < remainingByteLen
   /\ readFragmentedBuffer chunk this
      = (ok [],
         mkParser (parsedFrames this)
                  (Some (IFragmentedFrame.set_rawPayload
                           ff (IFragmentedFrame.rawPayload ff ++ chunk)))))
  \/ (remainingByteLen <= Buffer.byteLength chunk
      /\ exists payload,
          unmask_if (IFragmentedFrame.mask ff)
                    (IFragmentedFrame.rawPayload ff
                     ++ take (Z.to_nat remainingByteLen) chunk)
                    (IFragmentedFrame.payloadLen ff)
                    (IFragmentedFrame.maskingKey ff) = ok payload
          /\ Buffer.byteLength payload = IFragmentedFrame.payloadLen ff
          /\ readFragmentedBuffer chunk this
             = (ok (drop (Z.to_nat remainingByteLen) chunk),
                mkParser (parsedFrames this ++ [frame_of_fragment ff payload])
                         None)).
Proof.
  intros Hpending Hshort remainingByteLen.
  rewrite (readFragmentedBuffer_pending chunk this ff Hpending) by lia.
  fold remainingByteLen.
  destruct (Z.gtb_spec remainingByteLen (Buffer.byteLength chunk)) as [Hgt | Hle].
  - left. split; [lia | reflexivity].
  - right. split; [exact Hle |]. cbv zeta.
    pose proof (byteLength_nonneg (IFragmentedFrame.rawPayload ff)) as Hnn.
    destruct (unmask_if_total (IFragmentedFrame.mask ff)
                (IFragmentedFrame.rawPayload ff
                 ++ take (Z.to_nat remainingByteLen) chunk)
                (IFragmentedFrame.maskingKey ff)
                (IFragmentedFrame.payloadLen ff)) as (payload & Hu & Hlen).
    + lia.
    + rewrite byteLength_app. unfold remainingByteLen, Buffer.byteLength in *.
      rewrite length_take. lia.
    + exists payload. rewrite Hu. auto.
Qed.

Lemma fragment_set_rawPayload (h : Header.t) (raw raw' : Buffer.t) :
  IFragmentedFrame.set_rawPayload (fragment_of_header h raw) raw'
  = fragment_of_header h raw'.
Proof. reflexivity. Qed.

Lemma frame_of_fragment_of_header (h : Header.t) (raw payload : Buffer.t) :
  frame_of_fragment (fragment_of_header h raw) payload = frame_of_header h payload.
Proof. reflexivity. Qed.

Lemma readFragmentedBuffer_inv (chunk : Buffer.t) (this : WebsocketParser) :
  parser_inv this -> parser_inv (snd (readFragmentedBuffer chunk this)).
Proof.
  intros [Hframes Hpending].
  destruct (fragmentedFrame this) as [ff |] eqn:Hff.
  - destruct (Hpending ff eq_refl) as (Hshort & c & h & Hh & Hffh).
    destruct (readFragmentedBuffer_short chunk this ff Hff Hshort)
      as [(Hlt & ->) | (Hge & payload & Hu & Hlen & ->)]; cbn [snd].
    + split; [exact Hframes |].
      intros ff' [= <-]. split.
      * cbn [IFragmentedFrame.set_rawPayload IFragmentedFrame.rawPayload
               IFragmentedFrame.payloadLen].
        rewrite byteLength_app. lia.
      * exists c, h. split; [exact Hh |].
        rewrite Hffh at 1. reflexivity.
    + split; [| discriminate].
      apply Forall_app. split; [exact Hframes |].
      constructor; [| constructor].
      exists c, h. split; [exact Hh |]. split.
      * rewrite Hffh at 1. reflexivity.
      * exact Hlen.
  - rewrite readFragmentedBuffer_idle by assumption. cbn [snd].
    split; [exact Hframes |]. intros ff Hff'. congruence.
Qed.

Lemma parseFrame_inv (chunk : Buffer.t) (this : WebsocketParser) :
  parser_inv this -> parser_inv (snd (parseFrame chunk this)).
Proof.
  intros [Hframes Hpending]. rewrite parseFrame_cases.
  destruct (Buffer.byteLength chunk <=? 0); [now split |].
  destruct (parseHeader chunk) as [e | h] eqn:Hh; [now split |].
  destruct (parseHeader_bounds _ _ Hh) as [Hnn Hoff].
  cbv zeta.
  pose proof (slice_payload_length chunk (Header.byteOffset h) (Header.payloadLen h)
                ltac:(lia) Hnn) as Hmost.
  set (rawPayload := Buffer.slice chunk (Header.byteOffset h)
                       (Some (Header.byteOffset h + Header.payloadLen h))) in *.
  destruct (Z.ltb_spec (Buffer.byteLength rawPayload) (Header.payloadLen h))
    as [Hshort | Hfull]; cbn [snd].
  - split; [exact Hframes |].
    intros ff [= <-]. split; [exact Hshort |].
    exists chunk, h. now split.
  - destruct (unmask_if _ _ _ _) as [e | payload] eqn:Hu; cbn [snd];
      [now split |].
    split; [| exact Hpending].
    apply Forall_app. split; [exact Hframes |].
    constructor; [| constructor].
    exists chunk, h. split; [exact Hh |]. split; [reflexivity |].
    apply (unmask_if_length _ _ _ _ _ Hu). lia.
Qed.

Lemma readFrame_snd (chunk : Buffer.t) (this : WebsocketParser) :
  snd (readFrame chunk this)
  = match readFragmentedBuffer chunk this with
    | (inl _, this') => this'
    | (inr rest, this') => snd (parseFrame rest this')
    end.
Proof.
  unfold readFrame, bind.
  now destruct (readFragmentedBuffer chunk this) as [[e | rest] this'].
Qed.

Lemma readFrame_inv (chunk : Buffer.t) (this : WebsocketParser) :
  parser_inv this -> parser_inv (snd (readFrame chunk this)).
Proof.
  intros Hinv. rewrite readFrame_snd.
  pose proof (readFragmentedBuffer_inv chunk this Hinv) as Hinv'.
  destruct (readFragmentedBuffer chunk this) as [[e | rest] this']; cbn [snd] in *.
  - exact Hinv'.
  - now apply parseFrame_inv.
Qed.

(** Every parser a program can hold satisfies the invariant. *)
Lemma reachable_inv (this : WebsocketParser) : reachable this -> parser_inv this.
Proof.
  induction 1 as [| this _ [_ IH] | this chunk _ IH | this chunk _ IH].
  - split; [constructor | discriminate].
  - split; [constructor | exact IH].
  - now apply readFrame_inv.
  - now apply readFragmentedBuffer_inv.
Qed.

(** What one call of [parseFrame] appends: nothing, or the one frame
    decoded from the header of its chunk. *)
Lemma parseFrame_appended (chunk : Buffer.t) (this : WebsocketParser) :
  exists direct,
    parsedFrames (snd (parseFrame chunk this)) = parsedFrames this ++ direct
    /\ (direct = []
        \/ exists h payload,
            parseHeader chunk = ok h
            /\ direct = [frame_of_header h payload]
            /\ Buffer.byteLength payload = Header.payloadLen h).
Proof.
  rewrite parseFrame_cases.
  destruct (Buffer.byteLength chunk <=? 0).
  { exists []. cbn [snd]. rewrite app_nil_r. auto. }
  destruct (parseHeader chunk) as [e | h] eqn:Hh.
  { exists []. cbn [snd]. rewrite app_nil_r. auto. }
  destruct (parseHeader_bounds _ _ Hh) as [Hnn Hoff].
  cbv zeta.
  pose proof (slice_payload_length chunk (Header.byteOffset h) (Header.payloadLen h)
                ltac:(lia) Hnn) as Hmost.
  destruct (Z.ltb_spec
              (Buffer.byteLength
                 (Buffer.slice chunk (Header.byteOffset h)
                               (Some (Header.byteOffset h + Header.payloadLen h))))
              (Header.payloadLen h)) as [Hshort | Hfull].
  { exists []. cbn [snd parsedFrames]. rewrite app_nil_r. auto. }
  destruct (unmask_if _ _ _ _) as [e | payload] eqn:Hu.
  { exists []. cbn [snd]. rewrite app_nil_r. auto. }
  exists [frame_of_header h payload]. cbn [snd parsedFrames].
  split; [reflexivity |]. right. exists h, payload.
  split; [reflexivity |]. split; [reflexivity |].
  apply (unmask_if_length _ _ _ _ _ Hu). lia.
Qed.

(** C9.  Every frame in the queue of a parser a program can hold has a
    payload of exactly [payloadLen] bytes, and its [frameLen] is the byte
    offset behind the header it was decoded from plus the length of its
    payload.  A call of [readFrame] appends at most two frames: the pending
    partial frame that the chunk completes, whose [frameLen] is the byte
    offset stored with the pending frame plus the length of its payload,
    and the frame decoded directly from the header of what is left of the
    chunk, whose [frameLen] is the byte offset behind that header plus the
    length of its payload; both have a payload of exactly [payloadLen]
    bytes. *)
Theorem decoded_frames (this : WebsocketParser) :
  reachable this ->
  (forall frame,
      In frame (parsedFrames this) ->
      Buffer.byteLength (IFrame.payload frame) = IFrame.payloadLen frame
      /\ exists chunk h,
          parseHeader chunk = ok h
          /\ frame = frame_of_header h (IFrame.payload frame)
          /\ IFrame.frameLen frame
             = Header.byteOffset h + Buffer.byteLength (IFrame.payload frame))
  /\ (forall chunk, exists completed direct,
         parsedFrames (snd (readFrame chunk this))
         = parsedFrames this ++ completed ++ direct
         /\ (completed = []
             \/ exists ff payload,
                 fragmentedFrame this = Some ff
                 /\ completed = [frame_of_fragment ff payload]
                 /\ Buffer.byteLength payload = IFragmentedFrame.payloadLen ff
                 /\ IFrame.frameLen (frame_of_fragment ff payload)
                    = IFragmentedFrame.byteOffset ff + Buffer.byteLength payload)
         /\ (direct = []
             \/ exists rest h payload,
                 fst (readFragmentedBuffer chunk this) = ok rest
                 /\ parseHeader rest = ok h
                 /\ direct = [frame_of_header h payload]
                 /\ Buffer.byteLength payload = Header.payloadLen h
                 /\ IFrame.frameLen (frame_of_header h payload)
                    = Header.byteOffset h + Buffer.byteLength payload)).
Proof.
  intros Hreach.
  destruct (reachable_inv this Hreach) as [Hframes Hpending].
  split.
  - intros frame Hin. rewrite Forall_forall in Hframes.
    destruct (Hframes frame) as (chunk & h & Hh & Hf & Hlen).
    { now apply list_elem_of_In. }
    split; [exact Hlen |].
    exists chunk, h. split; [exact Hh |]. split; [exact Hf |].
    rewrite Hf at 1. reflexivity.
  - intros chunk. rewrite readFrame_snd.
    destruct (fragmentedFrame this) as [ff |] eqn:Hff.
    + destruct (Hpending ff eq_refl) as [Hshort _].
      destruct (readFragmentedBuffer_short chunk this ff Hff Hshort)
        as [(Hlt & Heq) | (Hge & payload & Hu & Hlen & Heq)]; rewrite Heq.
      * exists [], []. cbv beta iota delta [ok]. rewrite parseFrame_cases.
        cbn [snd parsedFrames app]. rewrite !app_nil_r. auto.
      * cbv beta iota delta [ok]. cbn [fst].
        destruct (parseFrame_appended
                    (drop (Z.to_nat (IFragmentedFrame.payloadLen ff
                                     - Buffer.byteLength
                                         (IFragmentedFrame.rawPayload ff))) chunk)
                    (mkParser (parsedFrames this ++ [frame_of_fragment ff payload])
                              None)) as (direct & Hq & Hdirect).
        exists [frame_of_fragment ff payload], direct.
        split; [rewrite Hq; cbn [parsedFrames]; now rewrite <- app_assoc |].
        split.
        -- right. exists ff, payload. auto.
        -- destruct Hdirect as [-> | (h & payload' & Hh & -> & Hlen')]; [now left |].
           right. eexists _, h, payload'. split; [reflexivity |]. auto.
    + rewrite readFragmentedBuffer_idle by assumption. cbn [fst].
      destruct (parseFrame_appended chunk this) as (direct & Hq & Hdirect).
      exists [], direct. split; [exact Hq |]. split; [now left |].
      destruct Hdirect as [-> | (h & payload & Hh & -> & Hlen)]; [now left |].
      right. exists chunk, h, payload. auto.
Qed.

Lemma decoded_frames_witness :
  let this := snd (readFrame [Byte.x62; Byte.x63]
                             (snd (readFrame [Byte.x81; Byte.x03; Byte.x61] newParser))) in
  let frame := IFrame.Build true 0 0 0 1 false 3 [Byte.x61; Byte.x62; Byte.x63] 5 in
  Buffer.byteLength (IFrame.payload frame) = IFrame.payloadLen frame
  /\ exists chunk h,
      parseHeader chunk = ok h
      /\ frame = frame_of_header h (IFrame.payload frame)
      /\ IFrame.frameLen frame
         = Header.byteOffset h + Buffer.byteLength (IFrame.payload frame).
Proof.
  intros this frame.
  assert (Hreach : reachable this)
    by apply reachable_readFrame, reachable_readFrame, reachable_new.
  destruct (decoded_frames this Hreach) as [Hqueue _].
  apply Hqueue. vm_compute. left. reflexivity.
Defined.

(** ** Completing a pending frame *)



(** ** The queue only grows *)

Lemma appends_ret {A} (a : A) : appends (ret a).
Proof. intros this. exists []. cbn. now rewrite app_nil_r. Qed.

Lemma appends_lift {A} (r : result A) : appends (lift r).
Proof. intros this. exists []. cbn. now rewrite app_nil_r. Qed.

Lemma appends_get_fragmentedFrame : appends get_fragmentedFrame.
Proof. intros this. exists []. cbn. now rewrite app_nil_r. Qed.

Lemma appends_set_fragmentedFrame (ff : option IFragmentedFrame.t) :
  appends (set_fragmentedFrame ff).
Proof. intros this. exists []. cbn. now rewrite app_nil_r. Qed.

Lemma appends_push_frame (frame : IFrame.t) : appends (push_frame frame).
Proof. intros this. now exists [frame]. Qed.

Lemma appends_bind {A B} (m : M A) (k : A -> M B) :
  appends m -> (forall a, appends (k a)) -> appends (bind m k).
Proof.
  intros Hm Hk this. unfold bind.
  destruct (Hm this) as [new Hnew].
  destruct (m this) as [[e | a] this']; cbn [snd] in *.
  - now exists new.
  - destruct (Hk a this') as [new' Hnew'].
    exists (new ++ new'). now rewrite Hnew', Hnew, app_assoc.
Qed.

Create HintDb appends.
#[local] Hint Resolve appends_ret appends_lift appends_get_fragmentedFrame
  appends_set_fragmentedFrame appends_push_frame : appends.

(** A method built from the primitives with [bind] appends. *)
Ltac appends_steps :=
  repeat first [ apply appends_bind; [| intros ?] | solve [auto with appends] ].

Lemma appends_readFragmentedBuffer (chunk : Buffer.t) :
  appends (readFragmentedBuffer chunk).
Proof.
  unfold readFragmentedBuffer.
  apply appends_bind; [auto with appends |].
  intros [ff |]; [| auto with appends].
  destruct (_ >? _); appends_steps.
Qed.

Lemma appends_parseFrame (chunk : Buffer.t) : appends (parseFrame chunk).
Proof.
  unfold parseFrame.
  destruct (_ <=? _); [auto with appends |].
  apply appends_bind; [auto with appends |]. intros h. cbv zeta.
  destruct (_ <? _); appends_steps.
Qed.

Lemma appends_readFrame (chunk : Buffer.t) : appends (readFrame chunk).
Proof.
  unfold readFrame. apply appends_bind.
  - apply appends_readFragmentedBuffer.
  - intros rest. apply appends_parseFrame.
Qed.

Lemma appends_readFrames (chunks : list Buffer.t) : appends (readFrames chunks).
Proof.
  induction chunks as [| chunk chunks IH]; cbn [readFrames].
  - apply appends_ret.
  - apply appends_bind; [apply appends_readFrame | intros _; exact IH].
Qed.

(** ** clearFrames and the pending frame *)

(** A pending frame is completed by the call that brings its last byte,
    however many calls it takes; the frame is then in the queue behind
    what the queue held. *)
Lemma pending_completed_later (chunks : list Buffer.t) :
  forall (this : WebsocketParser) (ff : IFragmentedFrame.t),
    fragmentedFrame this = Some ff ->
    Buffer.byteLength (IFragmentedFrame.rawPayload ff) < IFragmentedFrame.payloadLen ff ->
    let remainingByteLen :=
      IFragmentedFrame.payloadLen ff
      - Buffer.byteLength (IFragmentedFrame.rawPayload ff) in
    remainingByteLen <= Buffer.byteLength (List.concat chunks) ->
    exists payload rest,
      unmask_if (IFragmentedFrame.mask ff)
                (IFragmentedFrame.rawPayload ff
                 ++ take (Z.to_nat remainingByteLen) (List.concat chunks))
                (IFragmentedFrame.payloadLen ff)
                (IFragmentedFrame.maskingKey ff) = ok payload
      /\ parsedFrames (snd (readFrames chunks this))
         = parsedFrames this ++ frame_of_fragment ff payload :: rest.
Proof.
  induction chunks as [| chunk chunks IH]; intros this ff Hpending Hshort; cbv zeta.
  - intros Htotal. change (Buffer.byteLength (List.concat [])) with 0 in Htotal. lia.
  - intros Htotal. cbn [List.concat] in Htotal |- *.
    rewrite byteLength_app in Htotal.
    pose proof (readFragmentedBuffer_short chunk this ff Hpending Hshort) as Hstep.
    cbv zeta in Hstep.
    set (remainingByteLen := IFragmentedFrame.payloadLen ff
                             - Buffer.byteLength (IFragmentedFrame.rawPayload ff)) in *.
    destruct Hstep as [(Hlt & Heq) | (Hge & payload & Hu & Hlen & Heq)].
    + (* the chunk is buffered; the rest of the chunks complete the frame *)
      set (ff' := IFragmentedFrame.set_rawPayload
                    ff (IFragmentedFrame.rawPayload ff ++ chunk)) in *.
      specialize (IH (mkParser (parsedFrames this) (Some ff')) ff' eq_refl).
      cbv zeta in IH.
      cbn [ff' IFragmentedFrame.set_rawPayload IFragmentedFrame.rawPayload
               IFragmentedFrame.payloadLen IFragmentedFrame.mask
               IFragmentedFrame.maskingKey parsedFrames] in IH.
      rewrite byteLength_app in IH.
      destruct IH as (payload & rest & Hu & Hq); [lia | lia |].
      exists payload, rest. split.
      * rewrite <- Hu. f_equal. rewrite <- app_assoc. f_equal.
        rewrite take_app_ge by (unfold Buffer.byteLength in *; lia).
        f_equal. f_equal. unfold remainingByteLen, Buffer.byteLength in *. lia.
      * assert (Hcall : readFrame chunk this
                        = (ok [], mkParser (parsedFrames this) (Some ff'))).
        { unfold readFrame, bind. rewrite Heq. reflexivity. }
        cbn [readFrames]. unfold bind at 1. rewrite Hcall. exact Hq.
    + (* the chunk completes the frame *)
      cbn [readFrames]. unfold bind at 1.
      destruct (appends_parseFrame
                  (drop (Z.to_nat remainingByteLen) chunk)
                  (mkParser (parsedFrames this ++ [frame_of_fragment ff payload]) None))
        as [new Hnew].
      cbn [parsedFrames] in Hnew.
      assert (Hcall : parsedFrames (snd (readFrame chunk this))
                      = parsedFrames this ++ [frame_of_fragment ff payload] ++ new).
      { rewrite readFrame_snd, Heq. cbv beta iota delta [ok]. now rewrite Hnew, <- app_assoc. }
      assert (Hrun : exists more,
                 parsedFrames (snd (match readFrame chunk this with
                                    | (inl e, this') => (inl e, this')
                                    | (inr _, this') => readFrames chunks this'
                                    end))
                 = parsedFrames (snd (readFrame chunk this)) ++ more).
      { destruct (readFrame chunk this) as [[e | r] this'] eqn:Hr; cbn [snd].
        - exists []. now rewrite app_nil_r.
        - apply appends_readFrames. }
      destruct Hrun as [more Hmore].
      exists payload, (new ++ more). split.
      * rewrite <- Hu. f_equal. f_equal.
        apply take_app_le. unfold Buffer.byteLength in *. lia.
      * rewrite Hcall in Hmore. rewrite <- !app_assoc in Hmore. exact Hmore.
Qed.

(** C10.  [clearFrames] empties the queue of decoded frames and leaves the
    pending partial frame as it is; a frame whose payload was partially
    buffered before the call is still completed, with the bytes buffered
    before the call and the bytes that arrive after it, and pushed first
    to the emptied queue, by the later [readFrame] call that brings its
    last byte. *)
Theorem clearFrames_keeps_pending (this : WebsocketParser) :
  reachable this ->
  parsedFrames (clearFrames this) = []
  /\ fragmentedFrame (clearFrames this) = fragmentedFrame this
  /\ forall (ff : IFragmentedFrame.t) (chunks : list Buffer.t),
      fragmentedFrame this = Some ff ->
      let remainingByteLen :=
        IFragmentedFrame.payloadLen ff
        - Buffer.byteLength (IFragmentedFrame.rawPayload ff) in
      remainingByteLen <= Buffer.byteLength (List.concat chunks) ->
      exists payload rest,
        (if IFragmentedFrame.mask ff
         then unmask (IFragmentedFrame.rawPayload ff
                      ++ take (Z.to_nat remainingByteLen) (List.concat chunks))
                     (IFragmentedFrame.payloadLen ff)
                     (IFragmentedFrame.maskingKey ff)
         else ok (IFragmentedFrame.rawPayload ff
                  ++ take (Z.to_nat remainingByteLen) (List.concat chunks)))
        = ok payload
        /\ parsedFrames (snd (readFrames chunks (clearFrames this)))
           = frame_of_fragment ff payload :: rest.
Proof.
  intros Hreach. split; [reflexivity |]. split; [reflexivity |].
  intros ff chunks Hpending remainingByteLen Htotal.
  destruct (reachable_inv this Hreach) as [_ Hinv].
  destruct (Hinv ff Hpending) as [Hshort _].
  exact (pending_completed_later chunks (clearFrames this) ff Hpending Hshort Htotal).
Qed.

Lemma clearFrames_keeps_pending_witness :
  let this := snd (readFrame [Byte.x81; Byte.x03; Byte.x61]
                             (snd (readFrame [Byte.x81; Byte.x01; Byte.x41] newParser))) in
  parsedFrames this = [IFrame.Build true 0 0 0 1 false 1 [Byte.x41] 3]
  /\ parsedFrames (clearFrames this) = []
  /\ fragmentedFrame (clearFrames this) = fragmentedFrame this
  /\ exists rest,
      parsedFrames (snd (readFrames [[Byte.x62]; [Byte.x63]] (clearFrames this)))
      = IFrame.Build true 0 0 0 1 false 3 [Byte.x61; Byte.x62; Byte.x63] 5 :: rest.
Proof.
  intros this.
  assert (Hreach : reachable this)
    by apply reachable_readFrame, reachable_readFrame, reachable_new.
  destruct (clearFrames_keeps_pending this Hreach) as (Hempty & Hsame & Hlater).
  split; [vm_compute; reflexivity |].
  split; [exact Hempty |]. split; [exact Hsame |].
  destruct (Hlater (IFragmentedFrame.Build true 0 0 0 false 1 3 [Byte.x61]
                      [Byte.x00; Byte.x00; Byte.x00; Byte.x00] 2)
                   [[Byte.x62]; [Byte.x63]])
    as (payload & rest & Hu & Hq).
  - vm_compute. reflexivity.
  - vm_compute. discriminate.
  - vm_compute in Hu. injection Hu as <-. exists rest. exact Hq.
Defined.

(** ** Encoding, then decoding *)

Lemma readUInt8_first (b0 : byte) (rest : Buffer.t) :
  Buffer.readUInt8 (b0 :: rest) 0 = ok (byte.unsigned b0).
Proof. reflexivity. Qed.

Lemma readUInt8_second (b0 b1 : byte) (rest : Buffer.t) :
  Buffer.readUInt8 (b0 :: b1 :: rest) 1 = ok (byte.unsigned b1).
Proof. reflexivity. Qed.

Lemma land127_small (z : Z) : 0 <= z < 128 -> Z.land z 127 = z.
Proof.
  intros Hz. change 127 with (Z.ones 7). rewrite Z.land_ones by lia.
  apply Z.mod_small. change (2 ^ 7) with 128. lia.
Qed.

(** The header of a frame [createFrame] builds for a payload of at most 125
    bytes, as [parseHeader] reads it back. *)
Lemma parseHeader_createFrame_short
      (payload : Buffer.t) (opcode : Z) (fin : bool) :
  opcode = 1 \/ opcode = 2 ->
  Buffer.byteLength payload <= 125 ->
  parseHeader (byte.of_Z (generateFirstByte (ICreateFrameOptions.Build opcode fin))
               :: byte.of_Z (Buffer.byteLength payload) :: payload)
  = ok (Header.Build fin 0 0 0 opcode false (Buffer.byteLength payload)
                     [Byte.x00; Byte.x00; Byte.x00; Byte.x00] 2).
Proof.
  intros Hop Hle. pose proof (byteLength_nonneg payload) as Hnn.
  set (len := Buffer.byteLength payload) in *.
  assert (Hlen : parseLength
                   (byte.of_Z (generateFirstByte (ICreateFrameOptions.Build opcode fin))
                    :: byte.of_Z len :: payload) (Z.land len 127) 2
                 = ok (len, 2)).
  { rewrite land127_small by lia. unfold parseLength.
    destruct (Z.eqb_spec len 126); [lia |]. cbn [rbind ok fst snd].
    now destruct (Z.eqb_spec len 127); [lia |]. }
  rewrite (parseHeader_eq _ (generateFirstByte (ICreateFrameOptions.Build opcode fin)) len).
  - rewrite Hlen. rewrite (shiftr7_small len) by lia. cbn [Z.land Z.eqb negb].
    destruct Hop as [-> | ->]; destruct fin; reflexivity.
  - rewrite readUInt8_first.
    now rewrite byte_unsigned_of_Z_small by apply generateFirstByte_bounds.
  - destruct Hop as [-> | ->]; destruct fin; reflexivity.
  - destruct Hop as [-> | ->]; destruct fin; reflexivity.
  - destruct Hop as [-> | ->]; destruct fin; reflexivity.
  - rewrite readUInt8_second.
    now rewrite byte_unsigned_of_Z_small by lia.
Qed.

(** The round trip holds for every payload of at most 125 bytes, so for the
    lengths 0, 1 and 125 of C1: the frame [createFrame] builds decodes, on a
    parser with no pending partial frame, to exactly one frame with the
    payload, [opcode] and [fin] that went in and [mask = false]. *)
Lemma roundtrip_short
      (this : WebsocketParser) (payload : Buffer.t) (opcode : Z) (fin : bool) :
  fragmentedFrame this = None ->
  opcode = 1 \/ opcode = 2 ->
  Buffer.byteLength payload <= 125 ->
  exists rawFrame,
    createFrame payload (ICreateFrameOptions.Build opcode fin) = ok rawFrame
    /\ readFrame rawFrame this
       = (ok [],
          mkParser (parsedFrames this
                    ++ [IFrame.Build fin 0 0 0 opcode false
                                     (Buffer.byteLength payload) payload
                                     (2 + Buffer.byteLength payload)])
                   None).
Proof.
  intros Hidle Hop Hle. pose proof (byteLength_nonneg payload) as Hnn.
  rewrite createFrame_short by lia. eexists. split; [reflexivity |].
  rewrite readFrame_idle by assumption. rewrite parseFrame_cases.
  destruct (Z.leb_spec (Buffer.byteLength
                          (byte.of_Z (generateFirstByte
                                        (ICreateFrameOptions.Build opcode fin))
                           :: byte.of_Z (Buffer.byteLength payload) :: payload)) 0)
    as [Hemp | _].
  { unfold Buffer.byteLength in Hemp. cbn [length] in Hemp. lia. }
  rewrite (parseHeader_createFrame_short payload opcode fin Hop Hle).
  cbv beta iota zeta delta [ok]. cbn [Header.byteOffset Header.payloadLen Header.mask
                                      Header.maskingKey].
  set (b0 := byte.of_Z _). set (b1 := byte.of_Z _).
  assert (Hraw : Buffer.slice (b0 :: b1 :: payload) 2
                              (Some (2 + Buffer.byteLength payload)) = payload).
  { rewrite slice_range by lia.
    replace (2 + Buffer.byteLength payload - 2) with (Buffer.byteLength payload) by lia.
    change (drop (Z.to_nat 2) (b0 :: b1 :: payload)) with payload.
    unfold Buffer.byteLength. rewrite Nat2Z.id. apply firstn_all. }
  assert (Hrest : Buffer.slice (b0 :: b1 :: payload)
                               (2 + Buffer.byteLength payload) None = []).
  { rewrite slice_from by lia.
    replace (Z.to_nat (2 + Buffer.byteLength payload))
      with (S (S (length payload))) by (unfold Buffer.byteLength; lia).
    cbn [drop]. apply drop_all. }
  rewrite Hraw, Hrest.
  destruct (Z.ltb_spec (Buffer.byteLength payload) (Buffer.byteLength payload))
    as [Hlt | _]; [lia |].
  cbn [unmask_if]. now rewrite Hidle.
Qed.

(** C1 at a payload of 126 bytes: the frame [createFrame] builds does not
    decode to the payload.  The 16-bit length field is written at offsets 2
    and 3, and the payload then starts at offset 3 and overwrites its low
    byte.  For 126 bytes 0x41, [readFrame] reads the length 0x0041 = 65,
    decodes a frame of 65 payload bytes, and hands back the last 61 bytes
    of the chunk as the start of a next frame. *)
Theorem roundtrip_126_fails :
  let payload := replicate 126 Byte.x41 in
  exists rawFrame,
    createFrame payload (ICreateFrameOptions.Build 1 true) = ok rawFrame
    /\ rawFrame = Byte.x81 :: Byte.x7e :: Byte.x00 :: payload ++ [Byte.x00]
    /\ readFrame rawFrame newParser
       = (ok (replicate 60 Byte.x41 ++ [Byte.x00]),
          mkParser [IFrame.Build true 0 0 0 1 false 65 (replicate 65 Byte.x41) 69]
                   None)
    /\ IFrame.payload (IFrame.Build true 0 0 0 1 false 65 (replicate 65 Byte.x41) 69)
       <> payload.
Proof.
  eexists. split; [vm_compute; reflexivity |].
  split; [vm_compute; reflexivity |].
  split; [vm_compute; reflexivity |].
  vm_compute. discriminate.
Qed.

Lemma app_last_shift {A} (l : list A) (a b : A) : l ++ [a] = b :: l -> a = b.
Proof.
  revert b. induction l as [| x l IH]; intros b Heq.
  - now injection Heq.
  - injection Heq as -> Heq. now apply IH.
Qed.

(** What the length field yields when the second byte says 126: the 16-bit
    number at offset 2, or, when that number is 127, the 8-byte field
    behind it. *)
Lemma parseLength_126 (chunk : Buffer.t) (len off : Z) :
  parseLength chunk 126 2 = ok (len, off) ->
  exists len16,
    Buffer.readUInt16BE chunk 2 = ok len16
    /\ ((len16 <> 127 /\ len = len16 /\ off = 4) \/ (len16 = 127 /\ off = 12)).
Proof.
  unfold parseLength. change (126 =? 126) with true. cbv iota.
  destruct (Buffer.readUInt16BE chunk 2) as [e | len16]; [discriminate |].
  cbn [rbind ok fst snd]. intros Hp. exists len16. split; [reflexivity |].
  destruct (Z.eqb_spec len16 127) as [H127 | H127].
  - right. split; [exact H127 |].
    destruct (Buffer.readUInt32BE chunk (2 + 2)) as [e | f32]; [discriminate |].
    destruct (Buffer.readUInt32BE chunk (2 + 2 + 4)) as [e | s32]; [discriminate |].
    cbn [rbind ok] in Hp.
    destruct (negb (f32 =? 0)); [discriminate |]. now injection Hp as <- <-.
  - left. now injection Hp as <- <-.
Qed.

(** The failure is not particular to one payload: no payload of 126 bytes
    survives the round trip, whatever the options. *)
Lemma roundtrip_126_never (payload : Buffer.t) (options : ICreateFrameOptions.t) :
  Buffer.byteLength payload = 126 ->
  exists rawFrame,
    createFrame payload options = ok rawFrame
    /\ forall frame,
        In frame (parsedFrames (snd (readFrame rawFrame newParser))) ->
        IFrame.payload frame <> payload.
Proof.
  intros H126. rewrite createFrame_126 by assumption.
  eexists. split; [reflexivity |].
  set (b0 := byte.of_Z _).
  destruct payload as [| b payload]; [discriminate |].
  assert (Hn : length payload = 125%nat)
    by (unfold Buffer.byteLength in H126; cbn [length] in H126; lia).
  set (chunk := b0 :: Byte.x7e :: Byte.x00 :: (b :: payload) ++ [Byte.x00]).
  intros frame. rewrite readFrame_idle by reflexivity. rewrite parseFrame_cases.
  change (Buffer.byteLength chunk <=? 0) with false. cbv iota.
  destruct (parseHeader chunk) as [e | h] eqn:Hh; [intros [] |].
  destruct (parseHeader_bounds _ _ Hh) as [Hnn Hoff].
  destruct (parseHeader_inv _ _ Hh)
    as (firstByte & secondByte & len & off & _ & _ & _ & _ & Hb1 & Hlen & Hhv).
  injection Hb1 as <-. change (Z.land (byte.unsigned Byte.x7e) 127) with 126 in Hlen.
  change (negb (Z.land (Z.shiftr (byte.unsigned Byte.x7e) 7) 1 =? 0)) with false in Hhv.
  cbv iota in Hhv.
  assert (Hmask : Header.mask h = false) by now rewrite Hhv.
  assert (Hpl : Header.payloadLen h = len) by now rewrite Hhv.
  assert (Hbo : Header.byteOffset h = off) by now rewrite Hhv.
  destruct (parseLength_126 _ _ _ Hlen) as (len16 & H16 & Hcases).
  assert (Hlen16 : len16 = byte.unsigned b).
  { change (Buffer.readUInt16BE chunk 2)
      with (ok (byte.unsigned Byte.x00 * 2 ^ 8 + byte.unsigned b)) in H16.
    injection H16 as <-. change (byte.unsigned Byte.x00) with 0. lia. }
  cbv zeta. rewrite Hmask, Hpl, Hbo.
  rewrite slice_range by lia.
  replace (off + len - off) with len by lia.
  destruct (_ <? _); [intros [] |].
  cbn [unmask_if parsedFrames snd app]. intros [<- | []].
  cbn [frame_of_header IFrame.payload]. intros Heq.
  assert (Hlenraw : length (take (Z.to_nat len) (drop (Z.to_nat off) chunk)) = 126%nat).
  { rewrite Heq. cbn [length]. lia. }
  rewrite length_take, length_drop in Hlenraw.
  assert (Hchunk : length chunk = 130%nat).
  { unfold chunk. cbn [length]. rewrite length_app. cbn [length]. lia. }
  destruct Hcases as [(Hne & -> & ->) | (_ & ->)]; [| lia].
  change (drop (Z.to_nat 4) chunk) with (payload ++ [Byte.x00]) in Heq.
  rewrite take_ge in Heq by (rewrite length_app; cbn [length]; lia).
  apply app_last_shift in Heq. subst b.
  change (byte.unsigned Byte.x00) with 0 in Hlen16. lia.
Qed.

(** * Further properties of the decoder *)

(** ** What a call hands back *)

Lemma parseFrame_remainder
      (chunk rest : Buffer.t) (this this' : WebsocketParser) :
  parseFrame chunk this = (ok rest, this') ->
  exists n, rest = drop n chunk /\ (chunk <> [] -> (0 < n)%nat).
Proof.
  rewrite parseFrame_cases.
  destruct (Z.leb_spec (Buffer.byteLength chunk) 0) as [Hemp | Hne].
  { intros [= <- _]. exists 0%nat. split; [reflexivity |].
    intros Hc. destruct chunk; [contradiction |].
    unfold Buffer.byteLength in Hemp. cbn [length] in Hemp. lia. }
  destruct (parseHeader chunk) as [e | h] eqn:Hh; [discriminate |].
  destruct (parseHeader_bounds _ _ Hh) as [Hnn Hoff].
  cbv zeta. destruct (_ <? _).
  - intros [= <- _]. exists (length chunk). rewrite drop_all.
    split; [reflexivity |]. unfold Buffer.byteLength in Hne. lia.
  - destruct (unmask_if _ _ _ _) as [e | payload]; [discriminate |].
    intros [= <- _]. rewrite slice_from by lia.
    eexists. split; [reflexivity |]. lia.
Qed.

Lemma readFragmentedBuffer_remainder
      (chunk : Buffer.t) (this : WebsocketParser) :
  parser_inv this ->
  exists rest n,
    fst (readFragmentedBuffer chunk this) = ok rest
    /\ rest = drop n chunk
    /\ (rest <> [] -> fragmentedFrame (snd (readFragmentedBuffer chunk this)) = None).
Proof.
  intros [_ Hpending].
  destruct (fragmentedFrame this) as [ff |] eqn:Hff.
  - destruct (Hpending ff eq_refl) as [Hshort _].
    destruct (readFragmentedBuffer_short chunk this ff Hff Hshort)
      as [(Hlt & ->) | (Hge & payload & Hu & Hlen & ->)]; cbn [fst snd].
    + exists [], (length chunk). rewrite drop_all. now repeat split.
    + eexists _, _. repeat split; reflexivity.
  - rewrite readFragmentedBuffer_idle by assumption. cbn [fst snd].
    exists chunk, 0%nat. now repeat split.
Qed.

Lemma readFrame_eq (chunk : Buffer.t) (this : WebsocketParser) :
  readFrame chunk this
  = match readFragmentedBuffer chunk this with
    | (inl e, this') => (inl e, this')
    | (inr rest, this') => parseFrame rest this'
    end.
Proof. reflexivity. Qed.

(** The remainder of a call is the chunk without some of its first bytes. *)
Lemma readFrame_drops
        (chunk rest : Buffer.t) (this this' : WebsocketParser) :
  reachable this ->
  readFrame chunk this = (ok rest, this') ->
  exists n,
    rest = drop n chunk
    /\ (chunk <> [] -> (0 < n)%nat)
    /\ (chunk <> [] -> Buffer.byteLength rest < Buffer.byteLength chunk).
Proof.
  intros Hreach. rewrite readFrame_eq.
  destruct (readFragmentedBuffer_remainder chunk this (reachable_inv _ Hreach))
    as (mid & n1 & Hfst & Hmid & _).
  destruct (readFragmentedBuffer chunk this) as [[e | mid'] this1];
    cbn [fst] in Hfst; [discriminate |].
  injection Hfst as ->. intros Hp.
  destruct (parseFrame_remainder _ _ _ _ Hp) as (n2 & Hrest & Hpos).
  assert (Hn : chunk <> [] -> (0 < n1 + n2)%nat).
  { intros Hc. destruct (Nat.eq_dec n1 0%nat) as [-> | ?]; [| lia].
    rewrite drop_0 in Hmid. subst mid. specialize (Hpos Hc). lia. }
  exists (n1 + n2)%nat. split; [| split].
  - rewrite Hrest, Hmid. apply drop_drop.
  - exact Hn.
  - intros Hc. specialize (Hn Hc). rewrite Hrest, Hmid, drop_drop.
    unfold Buffer.byteLength. rewrite length_drop.
    destruct chunk; [contradiction |]. cbn [length]. lia.
Qed.


(** X1.  Whatever [readFrame] hands back to a caller is the chunk without
    some of its first bytes, and at least one byte is gone when the chunk
    was not empty: a caller that calls again on the remainder makes
    progress. *)
Theorem readFrame_remainder
        (chunk rest : Buffer.t) (this this' : WebsocketParser) :
  reachable this ->
  readFrame chunk this = (ok rest, this') ->
  exists n,
    rest = drop n chunk
    /\ (chunk <> [] -> (0 < n)%nat)
    /\ (chunk <> [] -> Buffer.byteLength rest < Buffer.byteLength chunk).
Proof. apply readFrame_drops. Qed.

Lemma readFrame_remainder_witness :
  exists n,
    [Byte.x81; Byte.x00] = drop n [Byte.x82; Byte.x01; Byte.x2a; Byte.x81; Byte.x00]
    /\ ([Byte.x82; Byte.x01; Byte.x2a; Byte.x81; Byte.x00] <> [] -> (0 < n)%nat)
    /\ ([Byte.x82; Byte.x01; Byte.x2a; Byte.x81; Byte.x00] <> [] ->
        Buffer.byteLength [Byte.x81; Byte.x00]
        < Buffer.byteLength [Byte.x82; Byte.x01; Byte.x2a; Byte.x81; Byte.x00]).
Proof.
  apply (readFrame_remainder
           [Byte.x82; Byte.x01; Byte.x2a; Byte.x81; Byte.x00] [Byte.x81; Byte.x00]
           newParser
           (mkParser [IFrame.Build true 0 0 0 2 false 1 [Byte.x2a] 3] None)).
  - apply reachable_new.
  - vm_compute. reflexivity.
Defined.

Lemma parseFrame_idle_after
      (chunk rest : Buffer.t) (this this' : WebsocketParser) :
  fragmentedFrame this = None ->
  parseFrame chunk this = (ok rest, this') ->
  rest <> [] -> fragmentedFrame this' = None.
Proof.
  intros Hidle. rewrite parseFrame_cases.
  destruct (_ <=? _); [now intros [= <- <-] |].
  destruct (parseHeader chunk) as [e | h]; [discriminate |].
  cbv zeta. destruct (_ <? _); [now intros [= <- _] |].
  destruct (unmask_if _ _ _ _) as [e | payload]; [discriminate |].
  now intros [= _ <-].
Qed.

(** X2.  When [readFrame] hands back a remainder that is not empty, no
    frame is pending: the next call on the remainder starts at a header. *)
Theorem readFrame_remainder_idle
        (chunk rest : Buffer.t) (this this' : WebsocketParser) :
  reachable this ->
  readFrame chunk this = (ok rest, this') ->
  rest <> [] ->
  fragmentedFrame this' = None.
Proof.
  intros Hreach. rewrite readFrame_eq.
  destruct (readFragmentedBuffer_remainder chunk this (reachable_inv _ Hreach))
    as (mid & n1 & Hfst & _ & Hidle).
  destruct (readFragmentedBuffer chunk this) as [[e | mid'] this1];
    cbn [fst snd] in *; [discriminate |].
  injection Hfst as ->. intros Hp Hrest.
  destruct mid as [| b mid].
  - rewrite parseFrame_cases in Hp. injection Hp as <- _. contradiction.
  - apply (parseFrame_idle_after _ _ _ _ (Hidle ltac:(discriminate)) Hp Hrest).
Qed.

Lemma readFrame_remainder_idle_witness :
  fragmentedFrame
    (snd (readFrame [Byte.x62; Byte.x63; Byte.x81; Byte.x00; Byte.x82; Byte.x00]
                    (snd (readFrame [Byte.x81; Byte.x03; Byte.x61] newParser))))
  = None.
Proof.
  apply (readFrame_remainder_idle
           [Byte.x62; Byte.x63; Byte.x81; Byte.x00; Byte.x82; Byte.x00]
           [Byte.x82; Byte.x00]
           (snd (readFrame [Byte.x81; Byte.x03; Byte.x61] newParser))).
  - apply reachable_readFrame, reachable_new.
  - vm_compute. reflexivity.
  - discriminate.
Defined.

(** ** What makes a call throw *)

Lemma readUInt8_error (buf : Buffer.t) (offset : Z) (e : exn) :
  Buffer.readUInt8 buf offset = throw e -> e = RangeError.
Proof.
  unfold Buffer.readUInt8. destruct (Buffer.get buf offset); [discriminate |].
  now intros [= <-].
Qed.

Lemma readUInt16BE_error (buf : Buffer.t) (offset : Z) (e : exn) :
  Buffer.readUInt16BE buf offset = throw e -> e = RangeError.
Proof.
  unfold Buffer.readUInt16BE.
  destruct (Buffer.get buf offset); [| now intros [= <-]].
  destruct (Buffer.get buf (offset + 1)); [discriminate | now intros [= <-]].
Qed.

Lemma readUInt32BE_error (buf : Buffer.t) (offset : Z) (e : exn) :
  Buffer.readUInt32BE buf offset = throw e -> e = RangeError.
Proof.
  unfold Buffer.readUInt32BE.
  destruct (Buffer.get buf offset); [| now intros [= <-]].
  destruct (Buffer.get buf (offset + 1)); [| now intros [= <-]].
  destruct (Buffer.get buf (offset + 2)); [| now intros [= <-]].
  destruct (Buffer.get buf (offset + 3)); [discriminate | now intros [= <-]].
Qed.

Lemma parseLength_errors (chunk : Buffer.t) (payloadLen byteOffset : Z) (e : exn) :
  parseLength chunk payloadLen byteOffset = throw e -> header_error e.
Proof.
  unfold parseLength, header_error. intros Hp.
  assert (Hlong : forall len off,
             (if len =? 127
              then (first32bits <- Buffer.readUInt32BE chunk off ;;
                    second32bits <- Buffer.readUInt32BE chunk (off + 4) ;;
                    if negb (first32bits =? 0)
                    then throw unsupported_length
                    else ok (second32bits, off + 8))
              else ok (len, off))%result = throw e ->
             e = RangeError \/ e = WebSocketError PROTOCOL_ERROR
             \/ e = unsupported_length).
  { intros len off H. destruct (len =? 127); [| discriminate].
    destruct (Buffer.readUInt32BE chunk off) as [e1 | f32] eqn:Hf.
    - injection H as <-. left. now apply readUInt32BE_error in Hf.
    - cbn [rbind ok] in H.
      destruct (Buffer.readUInt32BE chunk (off + 4)) as [e2 | s32] eqn:Hs.
      + injection H as <-. left. now apply readUInt32BE_error in Hs.
      + cbn [rbind ok] in H. destruct (negb (f32 =? 0)); [| discriminate].
        injection H as <-. auto. }
  destruct (payloadLen =? 126).
  - destruct (Buffer.readUInt16BE chunk byteOffset) as [e1 | len16] eqn:H16.
    + injection Hp as <-. left. now apply readUInt16BE_error in H16.
    + cbn [rbind ok fst snd] in Hp. exact (Hlong _ _ Hp).
  - cbn [rbind ok fst snd] in Hp. exact (Hlong _ _ Hp).
Qed.

Lemma parseHeader_errors (chunk : Buffer.t) (e : exn) :
  parseHeader chunk = throw e -> header_error e.
Proof.
  unfold parseHeader. intros Hp.
  destruct (Buffer.readUInt8 chunk 0) as [e0 | firstByte] eqn:Hb0.
  { injection Hp as <-. left. now apply readUInt8_error in Hb0. }
  cbn [rbind ok] in Hp.
  destruct (_ || _).
  { injection Hp as <-. right. now left. }
  destruct (Buffer.readUInt8 chunk (0 + 1)) as [e1 | secondByte] eqn:Hb1.
  { injection Hp as <-. left. now apply readUInt8_error in Hb1. }
  cbn [rbind ok] in Hp.
  destruct (parseLength chunk (Z.land secondByte 127) (0 + 1 + 1))
    as [e2 | st] eqn:Hlen.
  { injection Hp as <-. exact (parseLength_errors _ _ _ _ Hlen). }
  discriminate.
Qed.

Lemma parseFrame_throws
      (chunk : Buffer.t) (this this' : WebsocketParser) (e : exn) :
  parseFrame chunk this = (throw e, this') ->
  parseHeader chunk = throw e /\ this' = this.
Proof.
  rewrite parseFrame_cases.
  destruct (_ <=? _); [discriminate |].
  destruct (parseHeader chunk) as [e0 | h] eqn:Hh; [now intros [= <- <-] |].
  destruct (parseHeader_bounds _ _ Hh) as [Hnn Hoff].
  cbv zeta.
  pose proof (slice_payload_length chunk (Header.byteOffset h) (Header.payloadLen h)
                ltac:(lia) Hnn) as Hmost.
  destruct (Z.ltb_spec
              (Buffer.byteLength
                 (Buffer.slice chunk (Header.byteOffset h)
                               (Some (Header.byteOffset h + Header.payloadLen h))))
              (Header.payloadLen h)) as [Hshort | Hfull]; [discriminate |].
  destruct (unmask_if_total (Header.mask h)
              (Buffer.slice chunk (Header.byteOffset h)
                 (Some (Header.byteOffset h + Header.payloadLen h)))
              (Header.maskingKey h) (Header.payloadLen h) Hnn ltac:(lia))
    as (payload & -> & _).
  discriminate.
Qed.

(** X3.  [readFrame] throws for one reason only: the header of the bytes
    that are left once the pending partial frame has taken its share
    cannot be read.  The error is the one [parseHeader] throws on those
    bytes -- a [RangeError] for a header cut short, the protocol error, or
    the unsupported-length error -- and the parser is left as
    [readFragmentedBuffer] left it: a frame the chunk completed stays in
    the queue.  [readFragmentedBuffer] and the payload never throw. *)
Theorem readFrame_throws
        (chunk : Buffer.t) (this this' : WebsocketParser) (e : exn) :
  reachable this ->
  readFrame chunk this = (throw e, this') ->
  exists rest,
    readFragmentedBuffer chunk this = (ok rest, this')
    /\ parseHeader rest = throw e
    /\ header_error e.
Proof.
  intros Hreach. rewrite readFrame_eq.
  destruct (readFragmentedBuffer_remainder chunk this (reachable_inv _ Hreach))
    as (mid & n1 & Hfst & _ & _).
  destruct (readFragmentedBuffer chunk this) as [[e0 | mid'] this1];
    cbn [fst] in Hfst; [discriminate |].
  injection Hfst as ->. intros Hp.
  destruct (parseFrame_throws _ _ _ _ Hp) as [Hh ->].
  exists mid. split; [reflexivity |]. split; [exact Hh |].
  exact (parseHeader_errors _ _ Hh).
Qed.

Lemma readFrame_throws_witness :
  exists rest,
    readFragmentedBuffer [Byte.x62; Byte.x63; Byte.xc1]
                         (snd (readFrame [Byte.x81; Byte.x03; Byte.x61] newParser))
    = (ok rest,
       mkParser [IFrame.Build true 0 0 0 1 false 3
                              [Byte.x61; Byte.x62; Byte.x63] 5] None)
    /\ parseHeader rest = throw (WebSocketError PROTOCOL_ERROR)
    /\ header_error (WebSocketError PROTOCOL_ERROR).
Proof.
  apply (readFrame_throws
           [Byte.x62; Byte.x63; Byte.xc1]
           (snd (readFrame [Byte.x81; Byte.x03; Byte.x61] newParser))).
  - apply reachable_readFrame, reachable_new.
  - vm_compute. reflexivity.
Defined.

(** X4.  An empty chunk changes nothing: on every parser a program can
    hold, with or without a pending partial frame, [readFrame] returns the
    empty remainder and leaves the queue and the pending frame as they
    were. *)
Theorem readFrame_empty (this : WebsocketParser) :
  reachable this -> readFrame [] this = (ok [], this).
Proof.
  intros Hreach.
  destruct (reachable_inv _ Hreach) as [_ Hpending].
  destruct (fragmentedFrame this) as [ff |] eqn:Hff.
  - destruct (Hpending ff eq_refl) as [Hshort _].
    rewrite readFrame_eq.
    destruct (readFragmentedBuffer_short [] this ff Hff Hshort)
      as [(_ & ->) | (Hge & _)].
    + cbv beta iota delta [ok]. rewrite parseFrame_cases.
      change (Buffer.byteLength [] <=? 0) with true. cbv iota.
      f_equal. destruct this as [frames pending], ff. cbn in *.
      rewrite app_nil_r. now subst pending.
    + change (Buffer.byteLength []) with 0 in Hge. lia.
  - now apply readFrame_empty_idle.
Qed.

Lemma readFrame_empty_witness :
  readFrame [] (snd (readFrame [Byte.x81; Byte.x03; Byte.x61] newParser))
  = (ok [], snd (readFrame [Byte.x81; Byte.x03; Byte.x61] newParser)).
Proof.
  apply (readFrame_empty (snd (readFrame [Byte.x81; Byte.x03; Byte.x61] newParser))).
  apply reachable_readFrame, reachable_new.
Defined.

(** ** Chunks inside a payload *)

(** X5.  While a frame is pending, a chunk that does not bring its last
    byte can be delivered on its own or in front of the next chunk: with
    [c1] shorter than what the pending frame misses, [readFrame] on [c1]
    returns the empty remainder, and [readFrame] on [c1 ++ c2] does exactly
    what [readFrame] on [c1] followed by [readFrame] on [c2] does -- the
    same result, queue and pending frame. *)
Theorem pending_chunks_merge
        (this : WebsocketParser) (ff : IFragmentedFrame.t) (c1 c2 : Buffer.t) :
  reachable this ->
  fragmentedFrame this = Some ff ->
  Buffer.byteLength c1
  < IFragmentedFrame.payloadLen ff
    - Buffer.byteLength (IFragmentedFrame.rawPayload ff) ->
  fst (readFrame c1 this) = ok []
  /\ readFrame (c1 ++ c2) this = readFrame c2 (snd (readFrame c1 this)).
Proof.
  intros Hreach Hff Hlt.
  destruct (reachable_inv _ Hreach) as [_ Hpending].
  destruct (Hpending ff Hff) as [Hshort _].
  set (raw := IFragmentedFrame.rawPayload ff) in *.
  set (len := IFragmentedFrame.payloadLen ff) in *.
  set (ff1 := IFragmentedFrame.set_rawPayload ff (raw ++ c1)).
  assert (H1 : readFrame c1 this
               = (ok [], mkParser (parsedFrames this) (Some ff1))).
  { rewrite readFrame_eq.
    destruct (readFragmentedBuffer_short c1 this ff Hff Hshort)
      as [(_ & ->) | (Hge & _)]; [reflexivity |].
    fold raw len in Hge. lia. }
  rewrite H1. split; [reflexivity |]. cbn [snd].
  rewrite !readFrame_eq.
  rewrite (readFragmentedBuffer_pending (c1 ++ c2) this ff Hff) by (fold raw len; lia).
  rewrite (readFragmentedBuffer_pending
             c2 (mkParser (parsedFrames this) (Some ff1)) ff1 eq_refl).
  2:{ cbn [ff1 IFragmentedFrame.set_rawPayload IFragmentedFrame.rawPayload
               IFragmentedFrame.payloadLen].
      fold len. rewrite byteLength_app. lia. }
  cbn [ff1 IFragmentedFrame.set_rawPayload IFragmentedFrame.rawPayload
           IFragmentedFrame.payloadLen IFragmentedFrame.mask
           IFragmentedFrame.maskingKey parsedFrames].
  fold raw len. rewrite !byteLength_app.
  assert (Hn : Z.to_nat (len - Buffer.byteLength raw)
               = (length c1 + Z.to_nat (len - (Buffer.byteLength raw
                                                + Buffer.byteLength c1)))%nat)
    by (unfold Buffer.byteLength in *; lia).
  destruct (Z.gtb_spec (len - Buffer.byteLength raw)
                       (Buffer.byteLength c1 + Buffer.byteLength c2)) as [Hgt | Hle];
    destruct (Z.gtb_spec (len - (Buffer.byteLength raw + Buffer.byteLength c1))
                         (Buffer.byteLength c2)) as [Hgt' | Hle']; try lia.
  - now rewrite app_assoc.
  - cbv zeta. rewrite Hn, take_app_add, drop_app_add, app_assoc.
    reflexivity.
Qed.

Lemma pending_chunks_merge_witness :
  let this := snd (readFrame [Byte.x81; Byte.x03; Byte.x61] newParser) in
  fst (readFrame [Byte.x62] this) = ok []
  /\ readFrame ([Byte.x62] ++ [Byte.x63; Byte.x81; Byte.x00]) this
     = readFrame [Byte.x63; Byte.x81; Byte.x00] (snd (readFrame [Byte.x62] this)).
Proof.
  apply (pending_chunks_merge
           (snd (readFrame [Byte.x81; Byte.x03; Byte.x61] newParser))
           (IFragmentedFrame.Build true 0 0 0 false 1 3 [Byte.x61]
              [Byte.x00; Byte.x00; Byte.x00; Byte.x00] 2)
           [Byte.x62] [Byte.x63; Byte.x81; Byte.x00]).
  - apply reachable_readFrame, reachable_new.
  - vm_compute. reflexivity.
  - vm_compute. reflexivity.
Defined.

(** ** A chunk that starts at a header *)

(** X6.  What [readFrame] does, on a parser with no pending partial frame,
    with a chunk whose header it can read.  If fewer payload bytes follow
    the header than the header announces, the bytes that follow are stored
    with the header as the pending frame, the queue is unchanged and the
    remainder is empty.  Otherwise exactly [payloadLen] bytes behind the
    header are the payload, unmasked if the mask flag is set; the frame is
    appended, no frame is pending, and the remainder is the chunk without
    its first [frameLen] bytes, so that [frameLen] counts the bytes
    consumed when the chunk holds the whole header. *)
Theorem readFrame_at_header
        (this : WebsocketParser) (chunk : Buffer.t) (h : Header.t) :
  fragmentedFrame this = None ->
  parseHeader chunk = ok h ->
  let off := Z.to_nat (Header.byteOffset h) in
  let len := Header.payloadLen h in
  (Buffer.byteLength (drop off chunk) < len ->
   readFrame chunk this
   = (ok [], mkParser (parsedFrames this)
                      (Some (fragment_of_header h (drop off chunk)))))
  /\ (len <= Buffer.byteLength (drop off chunk) ->
      exists payload,
        (if Header.mask h
         then unmask (take (Z.to_nat len) (drop off chunk)) len (Header.maskingKey h)
         else ok (take (Z.to_nat len) (drop off chunk))) = ok payload
        /\ Buffer.byteLength payload = len
        /\ readFrame chunk this
           = (ok (drop (Z.to_nat (IFrame.frameLen (frame_of_header h payload))) chunk),
              mkParser (parsedFrames this ++ [frame_of_header h payload]) None)
        /\ (Header.byteOffset h <= Buffer.byteLength chunk ->
            Buffer.byteLength chunk
            = IFrame.frameLen (frame_of_header h payload)
              + Buffer.byteLength
                  (drop (Z.to_nat (IFrame.frameLen (frame_of_header h payload)))
                        chunk))).
Proof.
  intros Hidle Hh off len.
  destruct (parseHeader_bounds _ _ Hh) as [Hnn Hoff]. fold len in Hnn.
  assert (Hchunk : (Buffer.byteLength chunk <=? 0) = false).
  { destruct chunk; [discriminate |]. reflexivity. }
  assert (Hraw : Buffer.slice chunk (Header.byteOffset h)
                              (Some (Header.byteOffset h + len))
                 = take (Z.to_nat len) (drop off chunk)).
  { rewrite slice_range by lia. do 2 f_equal. lia. }
  assert (Hstart : readFrame chunk this
                   = if Buffer.byteLength (take (Z.to_nat len) (drop off chunk)) <? len
                     then (ok [], mkParser (parsedFrames this)
                                    (Some (fragment_of_header h
                                             (take (Z.to_nat len) (drop off chunk)))))
                     else match unmask_if (Header.mask h)
                                  (take (Z.to_nat len) (drop off chunk)) len
                                  (Header.maskingKey h) with
                          | inl e => (throw e, this)
                          | inr payload =>
                              (ok (Buffer.slice chunk (Header.byteOffset h + len) None),
                               mkParser (parsedFrames this ++ [frame_of_header h payload])
                                        (fragmentedFrame this))
                          end).
  { rewrite readFrame_idle by assumption. rewrite parseFrame_cases, Hchunk, Hh.
    cbv beta iota zeta delta [ok]. fold len. now rewrite Hraw. }
  split.
  - intros Hshort. rewrite Hstart.
    rewrite (take_ge (drop off chunk)) by (unfold Buffer.byteLength in Hshort; lia).
    now destruct (Z.ltb_spec (Buffer.byteLength (drop off chunk)) len); [| lia].
  - intros Hfull.
    assert (Hlen : Buffer.byteLength (take (Z.to_nat len) (drop off chunk)) = len).
    { unfold Buffer.byteLength in *. rewrite length_take. lia. }
    destruct (unmask_if_total (Header.mask h) (take (Z.to_nat len) (drop off chunk))
                (Header.maskingKey h) len Hnn Hlen) as (payload & Hu & Hpl).
    exists payload. split; [exact Hu |]. split; [exact Hpl |].
    cbn [frame_of_header IFrame.frameLen]. rewrite Hpl.
    split.
    + rewrite Hstart, Hlen, Hu, Hidle, slice_from by lia.
      now destruct (Z.ltb_spec len len); [lia |].
    + intros Hwhole. unfold Buffer.byteLength in *.
      rewrite length_drop in *. lia.
Qed.

Lemma readFrame_at_header_witness :
  readFrame [Byte.x81; Byte.x03; Byte.x61] newParser
  = (ok [], mkParser (parsedFrames newParser)
                     (Some (fragment_of_header
                              (Header.Build true 0 0 0 1 false 3
                                 [Byte.x00; Byte.x00; Byte.x00; Byte.x00] 2)
                              (drop (Z.to_nat 2) [Byte.x81; Byte.x03; Byte.x61])))).
Proof.
  apply (readFrame_at_header newParser [Byte.x81; Byte.x03; Byte.x61]
           (Header.Build true 0 0 0 1 false 3
                         [Byte.x00; Byte.x00; Byte.x00; Byte.x00] 2)).
  - reflexivity.
  - vm_compute. reflexivity.
  - vm_compute. reflexivity.
Defined.

(** ** Frames that follow each other in one chunk *)

Lemma get_app_l (buf tail : Buffer.t) (i : Z) :
  i < Buffer.byteLength buf -> Buffer.get (buf ++ tail) i = Buffer.get buf i.
Proof.
  intros Hi. unfold Buffer.get, Buffer.byteLength in *.
  destruct (Z.ltb_spec i 0); [reflexivity |].
  apply lookup_app_l. lia.
Qed.

Lemma readUInt8_app (buf tail : Buffer.t) (offset : Z) :
  offset < Buffer.byteLength buf ->
  Buffer.readUInt8 (buf ++ tail) offset = Buffer.readUInt8 buf offset.
Proof. intros H. unfold Buffer.readUInt8. now rewrite get_app_l. Qed.

Lemma readUInt16BE_app (buf tail : Buffer.t) (offset : Z) :
  offset + 1 < Buffer.byteLength buf ->
  Buffer.readUInt16BE (buf ++ tail) offset = Buffer.readUInt16BE buf offset.
Proof. intros H. unfold Buffer.readUInt16BE. now rewrite !get_app_l by lia. Qed.

Lemma readUInt32BE_app (buf tail : Buffer.t) (offset : Z) :
  offset + 3 < Buffer.byteLength buf ->
  Buffer.readUInt32BE (buf ++ tail) offset = Buffer.readUInt32BE buf offset.
Proof. intros H. unfold Buffer.readUInt32BE. now rewrite !get_app_l by lia. Qed.

Lemma slice_app (buf tail : Buffer.t) (s e : Z) :
  0 <= s -> 0 <= e -> e <= Buffer.byteLength buf ->
  Buffer.slice (buf ++ tail) s (Some e) = Buffer.slice buf s (Some e).
Proof.
  intros Hs He Hk. rewrite !slice_range by assumption.
  unfold Buffer.byteLength in Hk.
  destruct (Z.le_gt_cases e s) as [Hes | Hes].
  - now replace (Z.to_nat (e - s)) with 0%nat by lia.
  - rewrite drop_app_le by lia.
    apply take_app_le. rewrite length_drop. lia.
Qed.

(** The length field does not depend on what follows it. *)
Lemma parseLength_app
      (chunk tail : Buffer.t) (payloadLen byteOffset len off : Z) :
  parseLength chunk payloadLen byteOffset = ok (len, off) ->
  off <= Buffer.byteLength chunk ->
  parseLength (chunk ++ tail) payloadLen byteOffset = ok (len, off).
Proof.
  unfold parseLength. intros Hp Hk.
  destruct (payloadLen =? 126).
  - destruct (Buffer.readUInt16BE chunk byteOffset) as [e | len16] eqn:H16;
      [discriminate |].
    cbn [rbind ok fst snd] in Hp.
    destruct (len16 =? 127) eqn:H127.
    + destruct (Buffer.readUInt32BE chunk (byteOffset + 2)) as [e | f32] eqn:Hf;
        [discriminate |].
      destruct (Buffer.readUInt32BE chunk (byteOffset + 2 + 4)) as [e | s32] eqn:Hs;
        [discriminate |].
      cbn [rbind ok] in Hp.
      destruct (negb (f32 =? 0)) eqn:Hz; [discriminate |].
      injection Hp as <- <-.
      rewrite readUInt16BE_app, H16 by lia. cbn [rbind ok fst snd].
      rewrite H127, !readUInt32BE_app, Hf, Hs by lia. cbn [rbind ok].
      now rewrite Hz.
    + injection Hp as <- <-.
      rewrite readUInt16BE_app, H16 by lia. cbn [rbind ok fst snd].
      now rewrite H127.
  - cbn [rbind ok fst snd] in Hp |- *.
    destruct (payloadLen =? 127).
    + destruct (Buffer.readUInt32BE chunk byteOffset) as [e | f32] eqn:Hf;
        [discriminate |].
      destruct (Buffer.readUInt32BE chunk (byteOffset + 4)) as [e | s32] eqn:Hs;
        [discriminate |].
      cbn [rbind ok] in Hp.
      destruct (negb (f32 =? 0)) eqn:Hz; [discriminate |].
      injection Hp as <- <-.
      rewrite !readUInt32BE_app, Hf, Hs by lia. cbn [rbind ok].
      now rewrite Hz.
    + exact Hp.
Qed.

(** A header that lies whole in a chunk does not depend on what follows. *)
Lemma parseHeader_app (chunk tail : Buffer.t) (h : Header.t) :
  parseHeader chunk = ok h ->
  Header.byteOffset h <= Buffer.byteLength chunk ->
  parseHeader (chunk ++ tail) = ok h.
Proof.
  intros Hp Hk.
  destruct (parseHeader_inv _ _ Hp)
    as (firstByte & secondByte & len & off & Hb0 & H1 & H2 & H3 & Hb1 & Hlen & Hh).
  pose proof (parseLength_bounds _ _ _ _ _ Hlen ltac:(apply Z.land_nonneg; lia))
    as [_ Hoff].
  assert (Hoffk : off <= Buffer.byteLength chunk).
  { rewrite Hh in Hk. cbn [Header.byteOffset] in Hk.
    destruct (Z.land (Z.shiftr secondByte 7) 1 =? 0); cbn [negb] in Hk; lia. }
  rewrite (parseHeader_eq (chunk ++ tail) firstByte secondByte);
    try assumption.
  - rewrite (parseLength_app _ _ _ _ _ _ Hlen Hoffk). rewrite Hh. f_equal.
    f_equal.
    destruct (Z.land (Z.shiftr secondByte 7) 1 =? 0) eqn:Hm; cbn [negb];
      [reflexivity |].
    rewrite Hh in Hk. cbn [Header.byteOffset negb] in Hk.
    apply slice_app; lia.
  - rewrite readUInt8_app by lia. exact Hb0.
  - rewrite readUInt8_app by lia. exact Hb1.
Qed.

(** A complete frame in front of other bytes: [readFrame] decodes the
    frame and hands the other bytes back. *)
Lemma readFrame_complete_app
      (s tail : Buffer.t) (frame : IFrame.t) (this : WebsocketParser) :
  complete_frame s frame ->
  IFrame.frameLen frame = Buffer.byteLength s ->
  fragmentedFrame this = None ->
  readFrame (s ++ tail) this
  = (ok tail, mkParser (parsedFrames this ++ [frame]) None).
Proof.
  intros Hs Hlen Hidle.
  destruct (complete_frame_inv _ _ Hs)
    as (h & payload & Hh & Hdrop & Hu & Hpl & ->).
  destruct (parseHeader_bounds _ _ Hh) as [Hnn Hoff].
  cbn [frame_of_header IFrame.frameLen] in Hlen. rewrite Hpl in Hlen.
  assert (Hhapp : parseHeader (s ++ tail) = ok h)
    by (apply parseHeader_app; [assumption | lia]).
  unfold Buffer.byteLength in Hdrop, Hlen. rewrite length_drop in Hdrop.
  rewrite readFrame_idle by assumption. rewrite parseFrame_cases.
  destruct (Z.leb_spec (Buffer.byteLength (s ++ tail)) 0) as [Hemp | _].
  { unfold Buffer.byteLength in Hemp. rewrite length_app in Hemp. lia. }
  rewrite Hhapp. cbv beta iota zeta delta [ok].
  assert (Hraw : Buffer.slice (s ++ tail) (Header.byteOffset h)
                              (Some (Header.byteOffset h + Header.payloadLen h))
                 = drop (Z.to_nat (Header.byteOffset h)) s).
  { rewrite slice_range by lia.
    replace (Header.byteOffset h + Header.payloadLen h - Header.byteOffset h)
      with (Header.payloadLen h) by lia.
    rewrite drop_app_le by lia.
    rewrite take_app_le by (rewrite length_drop; lia).
    apply take_ge. rewrite length_drop. lia. }
  assert (Hrest : Buffer.slice (s ++ tail)
                               (Header.byteOffset h + Header.payloadLen h) None = tail).
  { rewrite slice_from by lia.
    replace (Z.to_nat (Header.byteOffset h + Header.payloadLen h))
      with (length s) by lia.
    apply drop_app_length. }
  rewrite Hraw, Hrest.
  destruct (Z.ltb_spec (Buffer.byteLength
                          (drop (Z.to_nat (Header.byteOffset h)) s))
                       (Header.payloadLen h)) as [Hlt | _].
  { unfold Buffer.byteLength in Hlt. rewrite length_drop in Hlt. lia. }
  now rewrite Hu, Hidle.
Qed.

(** X7.  Two complete frames in one chunk: [readFrame] on a parser with no
    pending partial frame decodes the first one and hands back the second,
    and [readFrame] on what it handed back decodes the second; the queue
    then ends with the two frames in the order of the chunk.  A byte
    sequence is a complete frame when it decodes on its own to one frame
    whose [frameLen] is the length of the sequence. *)
Theorem two_frames_in_one_chunk
        (this : WebsocketParser) (s1 s2 : Buffer.t) (f1 f2 : IFrame.t) :
  fragmentedFrame this = None ->
  complete_frame s1 f1 -> IFrame.frameLen f1 = Buffer.byteLength s1 ->
  complete_frame s2 f2 -> IFrame.frameLen f2 = Buffer.byteLength s2 ->
  readFrame (s1 ++ s2) this
  = (ok s2, mkParser (parsedFrames this ++ [f1]) None)
  /\ readFrame s2 (mkParser (parsedFrames this ++ [f1]) None)
     = (ok [], mkParser (parsedFrames this ++ [f1; f2]) None).
Proof.
  intros Hidle Hs1 Hl1 Hs2 Hl2. split.
  - now apply readFrame_complete_app.
  - rewrite <- (app_nil_r s2) at 1.
    rewrite (readFrame_complete_app s2 [] f2) by (assumption || reflexivity).
    cbn [parsedFrames]. now rewrite <- app_assoc.
Qed.

Lemma two_frames_in_one_chunk_witness :
  readFrame ([Byte.x81; Byte.x01; Byte.x61] ++ [Byte.x82; Byte.x00]) newParser
  = (ok [Byte.x82; Byte.x00],
     mkParser (parsedFrames newParser
               ++ [IFrame.Build true 0 0 0 1 false 1 [Byte.x61] 3]) None)
  /\ readFrame [Byte.x82; Byte.x00]
               (mkParser (parsedFrames newParser
                          ++ [IFrame.Build true 0 0 0 1 false 1 [Byte.x61] 3]) None)
     = (ok [],
        mkParser (parsedFrames newParser
                  ++ [IFrame.Build true 0 0 0 1 false 1 [Byte.x61] 3;
                      IFrame.Build true 0 0 0 2 false 0 [] 2]) None).
Proof.
  apply (two_frames_in_one_chunk newParser
           [Byte.x81; Byte.x01; Byte.x61] [Byte.x82; Byte.x00]
           (IFrame.Build true 0 0 0 1 false 1 [Byte.x61] 3)
           (IFrame.Build true 0 0 0 2 false 0 [] 2));
    vm_compute; reflexivity.
Defined.

(** ** The caller's loop *)

Lemma readRemaining_empty (fuel : nat) (this : WebsocketParser) :
  readRemaining fuel [] this = (ok true, this).
Proof. now destruct fuel. Qed.

Lemma readRemaining_step
      (fuel : nat) (b : byte) (rest : Buffer.t) (this : WebsocketParser) :
  readRemaining (S fuel) (b :: rest) this
  = match readFrame (b :: rest) this with
    | (inl e, this') => (inl e, this')
    | (inr remainingBuff, this') => readRemaining fuel remainingBuff this'
    end.
Proof. reflexivity. Qed.

(** The loop ends within as many turns as the remainder has bytes, and more
    fuel changes nothing. *)
Lemma readRemaining_enough (n : nat) :
  forall (fuel : nat) (remainingBuff : Buffer.t) (this : WebsocketParser),
    reachable this ->
    (length remainingBuff <= n)%nat -> (n <= fuel)%nat ->
    readRemaining fuel remainingBuff this = readRemaining n remainingBuff this
    /\ fst (readRemaining n remainingBuff this) <> ok false.
Proof.
  induction n as [| n IH]; intros fuel remainingBuff this Hreach Hlen Hfuel.
  - destruct remainingBuff; [| cbn [length] in Hlen; lia].
    rewrite !readRemaining_empty. split; [reflexivity | discriminate].
  - destruct remainingBuff as [| b rest].
    { rewrite !readRemaining_empty. split; [reflexivity | discriminate]. }
    destruct fuel as [| fuel]; [lia |].
    rewrite !readRemaining_step.
    pose proof (reachable_readFrame this (b :: rest) Hreach) as Hreach'.
    destruct (readFrame (b :: rest) this) as [[e | next] this'] eqn:Hcall.
    + split; [reflexivity | discriminate].
    + cbn [snd] in Hreach'.
      destruct (readFrame_drops _ _ _ _ Hreach Hcall) as (k & _ & _ & Hless).
      apply IH; [assumption | | lia].
      specialize (Hless ltac:(discriminate)).
      unfold Buffer.byteLength in Hless. cbn [length] in Hlen, Hless. lia.
Qed.

(** X8.  The loop of the [data] handler ends: started on a parser a program
    can hold, with any chunk, it needs at most as many turns as the chunk
    has bytes, since every call of [readFrame] hands back less than it was
    given.  With that much fuel or more the run never stops for lack of
    fuel and its outcome does not depend on the fuel. *)
Theorem onData_terminates
        (this : WebsocketParser) (buff : Buffer.t) (fuel : nat) :
  reachable this ->
  (length buff <= fuel)%nat ->
  onData fuel buff this = onData (length buff) buff this
  /\ fst (onData fuel buff this) <> ok false.
Proof.
  intros Hreach Hfuel. unfold onData, bind.
  pose proof (reachable_readFrame this buff Hreach) as Hreach'.
  destruct (readFrame buff this) as [[e | rest] this'] eqn:Hcall.
  - split; [reflexivity | discriminate].
  - cbn [snd] in Hreach'.
    destruct (readFrame_drops _ _ _ _ Hreach Hcall) as (k & -> & _ & _).
    assert (Hlen : (length (drop k buff) <= length buff)%nat)
      by (rewrite length_drop; lia).
    destruct (readRemaining_enough (length buff) fuel (drop k buff) this'
                Hreach' Hlen Hfuel) as [Heq Hne].
    rewrite Heq. split; [reflexivity | exact Hne].
Qed.

Lemma onData_terminates_witness :
  onData 9 [Byte.x81; Byte.x01; Byte.x61; Byte.x82; Byte.x00] newParser
  = onData (length [Byte.x81; Byte.x01; Byte.x61; Byte.x82; Byte.x00])
           [Byte.x81; Byte.x01; Byte.x61; Byte.x82; Byte.x00] newParser
  /\ fst (onData 9 [Byte.x81; Byte.x01; Byte.x61; Byte.x82; Byte.x00] newParser)
     <> ok false.
Proof.
  apply (onData_terminates newParser
           [Byte.x81; Byte.x01; Byte.x61; Byte.x82; Byte.x00] 9).
  - apply reachable_new.
  - simpl. lia.
Defined.

Lemma complete_frame_nonempty (s : Buffer.t) (frame : IFrame.t) :
  complete_frame s frame -> s <> [].
Proof. intros Hs ->. discriminate Hs. Qed.

Lemma readRemaining_frames (sfs : list (Buffer.t * IFrame.t)) :
  forall (fuel : nat) (this : WebsocketParser),
    fragmentedFrame this = None ->
    Forall (fun sf => complete_frame (fst sf) (snd sf)
                      /\ IFrame.frameLen (snd sf) = Buffer.byteLength (fst sf)) sfs ->
    (length sfs <= fuel)%nat ->
    readRemaining fuel (List.concat (map fst sfs)) this
    = (ok true, mkParser (parsedFrames this ++ map snd sfs) None).
Proof.
  induction sfs as [| [s f] sfs IH]; intros fuel this Hidle Hall Hfuel.
  - cbn [map List.concat]. rewrite readRemaining_empty, app_nil_r.
    destruct this. cbn in Hidle. now subst.
  - apply Forall_cons in Hall as [[Hs Hlen] Hall]. cbn [fst snd] in Hs, Hlen.
    cbn [map List.concat fst snd length] in *.
    destruct fuel as [| fuel]; [lia |].
    pose proof (complete_frame_nonempty _ _ Hs) as Hne.
    destruct s as [| b s]; [contradiction |].
    change ((b :: s) ++ List.concat (map fst sfs))
      with (b :: (s ++ List.concat (map fst sfs))).
    rewrite readRemaining_step.
    change (b :: (s ++ List.concat (map fst sfs)))
      with ((b :: s) ++ List.concat (map fst sfs)).
    rewrite (readFrame_complete_app _ _ f this Hs Hlen Hidle).
    cbv beta iota delta [ok].
    rewrite IH by (reflexivity || assumption || lia).
    cbn [parsedFrames]. now rewrite <- app_assoc.
Qed.

(** X9.  One chunk that holds any number of complete frames, one after the
    other: the loop of the [data] handler, started on a parser with no
    pending partial frame and with a turn of fuel per frame, ends normally
    and leaves the frames appended to the queue in the order of the chunk,
    and nothing pending. *)
Theorem onData_frames
        (this : WebsocketParser) (sfs : list (Buffer.t * IFrame.t)) (fuel : nat) :
  fragmentedFrame this = None ->
  Forall (fun sf => complete_frame (fst sf) (snd sf)
                    /\ IFrame.frameLen (snd sf) = Buffer.byteLength (fst sf)) sfs ->
  (length sfs <= fuel)%nat ->
  onData fuel (List.concat (map fst sfs)) this
  = (ok true, mkParser (parsedFrames this ++ map snd sfs) None).
Proof.
  intros Hidle Hall Hfuel. unfold onData, bind.
  destruct sfs as [| [s f] sfs].
  - cbn [map List.concat]. rewrite readFrame_empty_idle by assumption.
    cbv beta iota delta [ok].
    rewrite readRemaining_empty, app_nil_r.
    destruct this. cbn in Hidle. now subst.
  - apply Forall_cons in Hall as [[Hs Hlen] Hall]. cbn [fst snd] in Hs, Hlen.
    cbn [map List.concat fst snd length] in *.
    rewrite (readFrame_complete_app _ _ f this Hs Hlen Hidle).
    cbv beta iota delta [ok].
    rewrite (readRemaining_frames sfs fuel) by (reflexivity || assumption || lia).
    cbn [parsedFrames]. now rewrite <- app_assoc.
Qed.

Lemma onData_frames_witness :
  onData 2 (List.concat (map fst
              [([Byte.x81; Byte.x01; Byte.x61],
                IFrame.Build true 0 0 0 1 false 1 [Byte.x61] 3);
               ([Byte.x82; Byte.x00], IFrame.Build true 0 0 0 2 false 0 [] 2)]))
         newParser
  = (ok true,
     mkParser (parsedFrames newParser
               ++ map snd
                    [([Byte.x81; Byte.x01; Byte.x61],
                      IFrame.Build true 0 0 0 1 false 1 [Byte.x61] 3);
                     ([Byte.x82; Byte.x00], IFrame.Build true 0 0 0 2 false 0 [] 2)])
              None).
Proof.
  apply (onData_frames newParser
           [([Byte.x81; Byte.x01; Byte.x61],
             IFrame.Build true 0 0 0 1 false 1 [Byte.x61] 3);
            ([Byte.x82; Byte.x00], IFrame.Build true 0 0 0 2 false 0 [] 2)] 2).
  - reflexivity.
  - repeat constructor; vm_compute; reflexivity.
  - simpl. lia.
Defined.

(** ** Frames as a client sends them *)

(** A chunk that is a header, the payload the header announces, and other
    bytes: [readFrame] decodes the frame and hands the other bytes back. *)
Lemma readFrame_decodes
      (this : WebsocketParser) (pre raw rest payload : Buffer.t) (h : Header.t) :
  fragmentedFrame this = None ->
  parseHeader (pre ++ raw ++ rest) = ok h ->
  Buffer.byteLength pre = Header.byteOffset h ->
  Buffer.byteLength raw = Header.payloadLen h ->
  unmask_if (Header.mask h) raw (Header.payloadLen h) (Header.maskingKey h)
  = ok payload ->
  readFrame (pre ++ raw ++ rest) this
  = (ok rest, mkParser (parsedFrames this ++ [frame_of_header h payload]) None).
Proof.
  intros Hidle Hh Hpre Hraw Hu.
  destruct (parseHeader_bounds _ _ Hh) as [Hnn Hoff].
  rewrite readFrame_idle by assumption. rewrite parseFrame_cases.
  destruct (Z.leb_spec (Buffer.byteLength (pre ++ raw ++ rest)) 0) as [Hemp | _].
  { rewrite byteLength_app in Hemp.
    pose proof (byteLength_nonneg (raw ++ rest)). lia. }
  rewrite Hh. cbv beta iota zeta delta [ok].
  unfold Buffer.byteLength in Hpre, Hraw.
  assert (Hslice : Buffer.slice (pre ++ raw ++ rest) (Header.byteOffset h)
                                (Some (Header.byteOffset h + Header.payloadLen h))
                   = raw).
  { rewrite slice_range by lia.
    rewrite drop_app_length' by lia. apply take_app_length'. lia. }
  assert (Hrest : Buffer.slice (pre ++ raw ++ rest)
                               (Header.byteOffset h + Header.payloadLen h) None
                  = rest).
  { rewrite slice_from by lia. rewrite app_assoc.
    apply drop_app_length'. rewrite length_app. lia. }
  rewrite Hslice, Hrest.
  destruct (Z.ltb_spec (Buffer.byteLength raw) (Header.payloadLen h)) as [Hlt | _].
  { unfold Buffer.byteLength in Hlt. lia. }
  now rewrite Hu, Hidle.
Qed.

Lemma land127_high (z : Z) : 0 <= z < 128 -> Z.land (128 + z) 127 = z.
Proof.
  intros Hz. change 127 with (Z.ones 7). rewrite Z.land_ones by lia.
  change (2 ^ 7) with 128. symmetry. apply (Z.mod_unique _ _ 1); lia.
Qed.

Lemma fin_bit (firstByte : Z) :
  negb (Z.land (Z.shiftr firstByte 7) 1 =? 0) = Z.testbit firstByte 7.
Proof. rewrite land_shiftr_1. now destruct (Z.testbit firstByte 7). Qed.

Lemma rsv_bit_clear (firstByte n : Z) :
  Z.testbit firstByte n = false -> Z.land (Z.shiftr firstByte n) 1 = 0.
Proof. intros H. now rewrite land_shiftr_1, H. Qed.

(** X10.  A masked frame as a client sends it, with a payload of at most
    125 bytes: a first byte with the RSV bits clear, a second byte that is
    128 plus the payload length, the 4 bytes of the masking key, and the
    payload with byte [i] XORed with byte [i mod 4] of the key.  On a
    parser with no pending partial frame [readFrame] returns the bytes
    that follow the frame and appends one frame with the original payload,
    [mask = true], the [fin] bit and the opcode of the first byte, and
    [frameLen] 6 plus the payload length. *)
Theorem readFrame_masked
        (this : WebsocketParser) (b0 : byte) (key payload rest : Buffer.t) :
  fragmentedFrame this = None ->
  Z.testbit (byte.unsigned b0) 6 = false ->
  Z.testbit (byte.unsigned b0) 5 = false ->
  Z.testbit (byte.unsigned b0) 4 = false ->
  length key = 4%nat ->
  Buffer.byteLength payload <= 125 ->
  readFrame (b0 :: byte.of_Z (128 + Buffer.byteLength payload)
             :: key ++ unmasked payload key (length payload) ++ rest) this
  = (ok rest,
     mkParser (parsedFrames this
               ++ [IFrame.Build (Z.testbit (byte.unsigned b0) 7) 0 0 0
                                (Z.land (byte.unsigned b0) 15) true
                                (Buffer.byteLength payload) payload
                                (6 + Buffer.byteLength payload)])
              None).
Proof.
  intros Hidle H6 H5 H4 Hkey Hle.
  pose proof (byteLength_nonneg payload) as Hnn.
  set (len := Buffer.byteLength payload) in *.
  set (masked := unmasked payload key (length payload)).
  set (b1 := byte.of_Z (128 + len)).
  set (h := Header.Build (Z.testbit (byte.unsigned b0) 7) 0 0 0
                         (Z.land (byte.unsigned b0) 15) true len key 6).
  assert (Hb1 : byte.unsigned b1 = 128 + len)
    by (apply byte_unsigned_of_Z_small; lia).
  assert (Hh : parseHeader (b0 :: b1 :: key ++ masked ++ rest) = ok h).
  { rewrite (parseHeader_eq _ (byte.unsigned b0) (byte.unsigned b1));
      try reflexivity; try (now apply rsv_bit_clear).
    rewrite Hb1, land127_high by lia.
    assert (Hlen : parseLength (b0 :: b1 :: key ++ masked ++ rest) len 2
                   = ok (len, 2)).
    { unfold parseLength.
      destruct (Z.eqb_spec len 126); [lia |]. cbn [rbind ok fst snd].
      now destruct (Z.eqb_spec len 127); [lia |]. }
    rewrite Hlen. cbv beta iota delta [ok].
    rewrite (shiftr7_large (128 + len)) by lia.
    change (negb (Z.land 1 1 =? 0)) with true. cbv iota.
    rewrite fin_bit. unfold h. do 2 f_equal.
    rewrite slice_range by lia.
    change (drop (Z.to_nat 2) (b0 :: b1 :: key ++ masked ++ rest))
      with (key ++ masked ++ rest).
    apply take_app_length'. change (Z.to_nat (2 + 4 - 2)) with 4%nat. lia. }
  change (b0 :: b1 :: key ++ masked ++ rest)
    with ([b0; b1] ++ key ++ masked ++ rest) in Hh |- *.
  rewrite (app_assoc [b0; b1] key) in Hh |- *.
  rewrite (readFrame_decodes this ([b0; b1] ++ key) masked rest payload h);
    try assumption.
  - reflexivity.
  - rewrite byteLength_app. unfold Buffer.byteLength. rewrite Hkey. reflexivity.
  - unfold masked, Buffer.byteLength. now rewrite length_unmasked.
  - cbn [h Header.mask Header.payloadLen Header.maskingKey unmask_if].
    rewrite unmask_unmasked by lia. f_equal.
    unfold masked, len, Buffer.byteLength. rewrite Nat2Z.id.
    rewrite unmasked_involutive by lia. apply firstn_all.
Qed.

Lemma readFrame_masked_witness :
  readFrame (Byte.x81 :: byte.of_Z (128 + Buffer.byteLength [Byte.x68; Byte.x69])
             :: [Byte.x01; Byte.x02; Byte.x03; Byte.x04]
             ++ unmasked [Byte.x68; Byte.x69] [Byte.x01; Byte.x02; Byte.x03; Byte.x04]
                         (length [Byte.x68; Byte.x69])
             ++ [Byte.x82]) newParser
  = (ok [Byte.x82],
     mkParser (parsedFrames newParser
               ++ [IFrame.Build (Z.testbit (byte.unsigned Byte.x81) 7) 0 0 0
                                (Z.land (byte.unsigned Byte.x81) 15) true
                                (Buffer.byteLength [Byte.x68; Byte.x69])
                                [Byte.x68; Byte.x69]
                                (6 + Buffer.byteLength [Byte.x68; Byte.x69])])
              None).
Proof.
  apply (readFrame_masked newParser Byte.x81
           [Byte.x01; Byte.x02; Byte.x03; Byte.x04] [Byte.x68; Byte.x69]
           [Byte.x82]); try reflexivity.
  vm_compute. discriminate.
Defined.

(** ** The 16-bit length field *)

(** X11.  An unmasked frame with the 16-bit length field: a first byte
    with the RSV bits clear, the second byte 126, two bytes that are the
    payload length [L], most significant first, and [L] payload bytes.
    Unless [L] is 127, [readFrame] on a parser with no pending partial
    frame returns the bytes that follow and appends one frame with that
    payload, [payloadLen = L] and [frameLen = 4 + L]; a length below 126
    is accepted in this form as well. *)
Theorem readFrame_length_126
        (this : WebsocketParser) (b0 hi lo : byte) (payload rest : Buffer.t) :
  fragmentedFrame this = None ->
  Z.testbit (byte.unsigned b0) 6 = false ->
  Z.testbit (byte.unsigned b0) 5 = false ->
  Z.testbit (byte.unsigned b0) 4 = false ->
  Buffer.byteLength payload = byte.unsigned hi * 2 ^ 8 + byte.unsigned lo ->
  Buffer.byteLength payload <> 127 ->
  readFrame (b0 :: Byte.x7e :: hi :: lo :: payload ++ rest) this
  = (ok rest,
     mkParser (parsedFrames this
               ++ [IFrame.Build (Z.testbit (byte.unsigned b0) 7) 0 0 0
                                (Z.land (byte.unsigned b0) 15) false
                                (Buffer.byteLength payload) payload
                                (4 + Buffer.byteLength payload)])
              None).
Proof.
  intros Hidle H6 H5 H4 Hlen H127.
  set (len := Buffer.byteLength payload) in *.
  set (h := Header.Build (Z.testbit (byte.unsigned b0) 7) 0 0 0
                         (Z.land (byte.unsigned b0) 15) false len
                         [Byte.x00; Byte.x00; Byte.x00; Byte.x00] 4).
  assert (Hh : parseHeader (b0 :: Byte.x7e :: hi :: lo :: payload ++ rest) = ok h).
  { rewrite (parseHeader_eq _ (byte.unsigned b0) (byte.unsigned Byte.x7e));
      try reflexivity; try (now apply rsv_bit_clear).
    change (Z.land (byte.unsigned Byte.x7e) 127) with 126.
    assert (Hpl : parseLength (b0 :: Byte.x7e :: hi :: lo :: payload ++ rest) 126 2
                  = ok (len, 4)).
    { unfold parseLength. change (126 =? 126) with true. cbv iota.
      change (Buffer.readUInt16BE (b0 :: Byte.x7e :: hi :: lo :: payload ++ rest) 2)
        with (ok (byte.unsigned hi * 2 ^ 8 + byte.unsigned lo)).
      rewrite <- Hlen. cbn [rbind ok fst snd].
      now destruct (Z.eqb_spec len 127); [contradiction |]. }
    rewrite Hpl. cbv beta iota delta [ok].
    change (negb (Z.land (Z.shiftr (byte.unsigned Byte.x7e) 7) 1 =? 0)) with false.
    cbv iota. now rewrite fin_bit. }
  change (b0 :: Byte.x7e :: hi :: lo :: payload ++ rest)
    with ([b0; Byte.x7e; hi; lo] ++ payload ++ rest) in Hh |- *.
  now rewrite (readFrame_decodes this [b0; Byte.x7e; hi; lo] payload rest payload h).
Qed.

Lemma readFrame_length_126_witness :
  readFrame (Byte.x82 :: Byte.x7e :: Byte.x00 :: Byte.x03
             :: [Byte.x61; Byte.x62; Byte.x63] ++ [Byte.x81; Byte.x00]) newParser
  = (ok [Byte.x81; Byte.x00],
     mkParser (parsedFrames newParser
               ++ [IFrame.Build (Z.testbit (byte.unsigned Byte.x82) 7) 0 0 0
                                (Z.land (byte.unsigned Byte.x82) 15) false
                                (Buffer.byteLength [Byte.x61; Byte.x62; Byte.x63])
                                [Byte.x61; Byte.x62; Byte.x63]
                                (4 + Buffer.byteLength [Byte.x61; Byte.x62; Byte.x63])])
              None).
Proof.
  apply (readFrame_length_126 newParser Byte.x82 Byte.x00 Byte.x03
           [Byte.x61; Byte.x62; Byte.x63] [Byte.x81; Byte.x00]);
    try reflexivity.
  vm_compute. discriminate.
Defined.

(** X12.  The 16-bit length 127.  The test for the 8-byte length field
    follows the test for the 16-bit field and sees the length the 16-bit
    field has just given: a header whose second byte is 126 and whose
    16-bit length is 127 is read on, and the 8 bytes behind the 16-bit
    field are taken for a 64-bit length.  If their first half is not zero
    [readFrame] throws the unsupported-length error; otherwise the payload
    length is their second half and the payload starts at offset 12. *)
Theorem readFrame_length_126_then_127
        (this : WebsocketParser) (b0 e0 e1 e2 e3 e4 e5 e6 e7 : byte)
        (rest : Buffer.t) :
  let chunk := b0 :: Byte.x7e :: Byte.x00 :: Byte.x7f
               :: e0 :: e1 :: e2 :: e3 :: e4 :: e5 :: e6 :: e7 :: rest in
  fragmentedFrame this = None ->
  Z.testbit (byte.unsigned b0) 6 = false ->
  Z.testbit (byte.unsigned b0) 5 = false ->
  Z.testbit (byte.unsigned b0) 4 = false ->
  Buffer.readUInt16BE chunk 2 = ok 127
  /\ (uint32BE e0 e1 e2 e3 <> 0 ->
      readFrame chunk this = (throw unsupported_length, this))
  /\ (uint32BE e0 e1 e2 e3 = 0 ->
      parseHeader chunk
      = ok (Header.Build (Z.testbit (byte.unsigned b0) 7) 0 0 0
                         (Z.land (byte.unsigned b0) 15) false
                         (uint32BE e4 e5 e6 e7)
                         [Byte.x00; Byte.x00; Byte.x00; Byte.x00] 12)).
Proof.
  intros chunk Hidle H6 H5 H4.
  split; [reflexivity |].
  assert (Hpl : parseLength chunk 126 2
                = if negb (uint32BE e0 e1 e2 e3 =? 0)
                  then throw unsupported_length
                  else ok (uint32BE e4 e5 e6 e7, 12)).
  { unfold parseLength. change (126 =? 126) with true. cbv iota.
    change (Buffer.readUInt16BE chunk 2) with (ok 127).
    cbn [rbind ok fst snd]. change (127 =? 127) with true. cbv iota.
    change (Buffer.readUInt32BE chunk (2 + 2)) with (ok (uint32BE e0 e1 e2 e3)).
    change (Buffer.readUInt32BE chunk (2 + 2 + 4)) with (ok (uint32BE e4 e5 e6 e7)).
    reflexivity. }
  assert (Hh : parseHeader chunk
               = match parseLength chunk 126 2 with
                 | inl e => throw e
                 | inr (len, off) =>
                     ok (Header.Build (Z.testbit (byte.unsigned b0) 7) 0 0 0
                                      (Z.land (byte.unsigned b0) 15) false len
                                      [Byte.x00; Byte.x00; Byte.x00; Byte.x00] off)
                 end).
  { rewrite (parseHeader_eq _ (byte.unsigned b0) (byte.unsigned Byte.x7e));
      try reflexivity; try (now apply rsv_bit_clear).
    change (Z.land (byte.unsigned Byte.x7e) 127) with 126.
    change (negb (Z.land (Z.shiftr (byte.unsigned Byte.x7e) 7) 1 =? 0)) with false.
    cbv iota. now rewrite fin_bit. }
  rewrite Hpl in Hh.
  split; intros Hhalf.
  - destruct (Z.eqb_spec (uint32BE e0 e1 e2 e3) 0) as [| _]; [contradiction |].
    cbn [negb] in Hh.
    rewrite readFrame_idle by assumption. rewrite parseFrame_cases.
    change (Buffer.byteLength chunk <=? 0) with false. cbv iota.
    now rewrite Hh.
  - destruct (Z.eqb_spec (uint32BE e0 e1 e2 e3) 0) as [_ |]; [| contradiction].
    exact Hh.
Qed.

Lemma readFrame_length_126_then_127_witness :
  readFrame [Byte.x81; Byte.x7e; Byte.x00; Byte.x7f;
             Byte.x00; Byte.x00; Byte.x00; Byte.x01;
             Byte.x00; Byte.x00; Byte.x00; Byte.x00] newParser
  = (throw unsupported_length, newParser).
Proof.
  apply (readFrame_length_126_then_127 newParser Byte.x81
           Byte.x00 Byte.x00 Byte.x00 Byte.x01
           Byte.x00 Byte.x00 Byte.x00 Byte.x00 []);
    try reflexivity.
  vm_compute. discriminate.
Defined.

(** ** A header cut short *)

Lemma get_outside (buf : Buffer.t) (i : Z) :
  Buffer.byteLength buf <= i -> Buffer.get buf i = None.
Proof.
  unfold Buffer.byteLength, Buffer.get. intros Hi.
  destruct (Z.ltb_spec i 0); [reflexivity |].
  apply lookup_ge_None. lia.
Qed.

Lemma readUInt32BE_short (buf : Buffer.t) (offset : Z) :
  0 <= offset -> Buffer.byteLength buf < offset + 4 ->
  Buffer.readUInt32BE buf offset = throw RangeError.
Proof.
  intros Hoff Hlen. unfold Buffer.readUInt32BE.
  rewrite (get_outside buf (offset + 3)) by lia.
  destruct (Buffer.get buf offset); [| reflexivity].
  destruct (Buffer.get buf (offset + 1)); [| reflexivity].
  now destruct (Buffer.get buf (offset + 2)).
Qed.

Lemma readUInt16BE_short (buf : Buffer.t) (offset : Z) :
  0 <= offset -> Buffer.byteLength buf < offset + 2 ->
  Buffer.readUInt16BE buf offset = throw RangeError.
Proof.
  intros Hoff Hlen. unfold Buffer.readUInt16BE.
  rewrite (get_outside buf (offset + 1)) by lia.
  now destruct (Buffer.get buf offset).
Qed.

(** X13.  A chunk that ends inside the header, on a parser with no pending
    partial frame and with the RSV bits of the first byte clear: a chunk
    of one byte, a chunk whose second byte announces the 16-bit length
    field and that holds fewer than 2 bytes of it, and a chunk whose second
    byte announces the 8-byte length field and that holds fewer than 8
    bytes of it.  In each case [readFrame] throws a [RangeError] and leaves
    the parser as it was: nothing of the chunk is kept. *)
Theorem readFrame_truncated_header (this : WebsocketParser) (b0 : byte) :
  fragmentedFrame this = None ->
  Z.testbit (byte.unsigned b0) 6 = false ->
  Z.testbit (byte.unsigned b0) 5 = false ->
  Z.testbit (byte.unsigned b0) 4 = false ->
  readFrame [b0] this = (throw RangeError, this)
  /\ (forall (b1 : byte) (rest : Buffer.t),
         Z.land (byte.unsigned b1) 127 = 126 ->
         (length rest < 2)%nat ->
         readFrame (b0 :: b1 :: rest) this = (throw RangeError, this))
  /\ (forall (b1 : byte) (rest : Buffer.t),
         Z.land (byte.unsigned b1) 127 = 127 ->
         (length rest < 8)%nat ->
         readFrame (b0 :: b1 :: rest) this = (throw RangeError, this)).
Proof.
  intros Hidle H6 H5 H4.
  assert (Hfrom : forall chunk e,
             chunk <> [] -> parseHeader chunk = throw e ->
             readFrame chunk this = (throw e, this)).
  { intros chunk e Hne Hh. rewrite readFrame_idle by assumption.
    rewrite parseFrame_cases, Hh.
    destruct chunk; [contradiction | reflexivity]. }
  split; [| split].
  - apply Hfrom; [discriminate |]. unfold parseHeader.
    rewrite readUInt8_first. cbn [rbind ok].
    rewrite !rsv_bit_clear by assumption. reflexivity.
  - intros b1 rest H126 Hlen. apply Hfrom; [discriminate |].
    rewrite (parseHeader_eq _ (byte.unsigned b0) (byte.unsigned b1));
      try reflexivity; try (now apply rsv_bit_clear).
    rewrite H126. unfold parseLength. change (126 =? 126) with true. cbv iota.
    rewrite readUInt16BE_short; [reflexivity | lia |].
    unfold Buffer.byteLength. cbn [length]. lia.
  - intros b1 rest H127 Hlen. apply Hfrom; [discriminate |].
    rewrite (parseHeader_eq _ (byte.unsigned b0) (byte.unsigned b1));
      try reflexivity; try (now apply rsv_bit_clear).
    rewrite H127. unfold parseLength. change (127 =? 126) with false.
    cbn [rbind ok fst snd]. change (127 =? 127) with true. cbv iota.
    destruct (Buffer.readUInt32BE (b0 :: b1 :: rest) 2) as [e | f32] eqn:Hf.
    + now apply readUInt32BE_error in Hf as ->.
    + cbn [rbind ok]. rewrite readUInt32BE_short; [reflexivity | lia |].
      unfold Buffer.byteLength. cbn [length]. lia.
Qed.

Lemma readFrame_truncated_header_witness :
  readFrame [Byte.x81] newParser = (throw RangeError, newParser)
  /\ readFrame [Byte.x81; Byte.x7e; Byte.x01] newParser
     = (throw RangeError, newParser)
  /\ readFrame [Byte.x81; Byte.xff; Byte.x00; Byte.x00; Byte.x00; Byte.x00;
                Byte.x00; Byte.x00; Byte.x00] newParser
     = (throw RangeError, newParser).
Proof.
  destruct (readFrame_truncated_header newParser Byte.x81)
    as (Hone & H16 & H64); try reflexivity.
  split; [exact Hone |]. split.
  - apply H16; [reflexivity | simpl; lia].
  - apply H64; [reflexivity | simpl; lia].
Defined.

(** ** Encoding with any options *)

(** X14.  Encoding then decoding, for every options value and every
    payload of at most 125 bytes: [readFrame], on a parser with no pending
    partial frame, decodes the frame [createFrame] builds to exactly one
    frame with the payload that went in, [mask = false], the RSV bits 0 and
    an empty remainder.  The opcode that comes out is 1 when the opcode of
    the options is 1 and 2 in every other case, and [fin] comes out as it
    went in only for the opcodes 1 and 2: any other opcode is sent as a
    binary frame that is not final. *)
Theorem roundtrip_any_options
        (this : WebsocketParser) (payload : Buffer.t)
        (options : ICreateFrameOptions.t) :
  fragmentedFrame this = None ->
  Buffer.byteLength payload <= 125 ->
  let opcode := ICreateFrameOptions.opcode options in
  let fin := ICreateFrameOptions.fin options in
  exists rawFrame,
    createFrame payload options = ok rawFrame
    /\ readFrame rawFrame this
       = (ok [],
          mkParser (parsedFrames this
                    ++ [IFrame.Build
                          (fin && ((opcode =? 1) || (opcode =? 2))) 0 0 0
                          (if opcode =? 1 then 1 else 2) false
                          (Buffer.byteLength payload) payload
                          (2 + Buffer.byteLength payload)])
                   None).
Proof.
  intros Hidle Hle opcode fin. pose proof (byteLength_nonneg payload) as Hnn.
  rewrite createFrame_short by lia. eexists. split; [reflexivity |].
  set (len := Buffer.byteLength payload) in *.
  set (b0 := byte.of_Z (generateFirstByte options)).
  set (b1 := byte.of_Z len).
  set (h := Header.Build (fin && ((opcode =? 1) || (opcode =? 2))) 0 0 0
                         (if opcode =? 1 then 1 else 2) false len
                         [Byte.x00; Byte.x00; Byte.x00; Byte.x00] 2).
  assert (Hb0 : byte.unsigned b0 = generateFirstByte options)
    by (apply byte_unsigned_of_Z_small, generateFirstByte_bounds).
  assert (Hb1 : byte.unsigned b1 = len)
    by (apply byte_unsigned_of_Z_small; lia).
  assert (Hh : parseHeader (b0 :: b1 :: payload ++ []) = ok h).
  { rewrite (parseHeader_eq _ (byte.unsigned b0) (byte.unsigned b1));
      try reflexivity.
    - rewrite Hb0, Hb1, land127_small by lia.
      assert (Hlen : parseLength (b0 :: b1 :: payload ++ []) len 2 = ok (len, 2)).
      { unfold parseLength.
        destruct (Z.eqb_spec len 126); [lia |]. cbn [rbind ok fst snd].
        now destruct (Z.eqb_spec len 127); [lia |]. }
      rewrite Hlen. cbv beta iota delta [ok].
      rewrite (shiftr7_small len) by lia.
      change (negb (Z.land 0 1 =? 0)) with false. cbv iota.
      unfold h, generateFirstByte. fold opcode fin.
      destruct (opcode =? 1), (opcode =? 2), fin; reflexivity.
    - rewrite Hb0. unfold generateFirstByte. fold opcode fin.
      destruct (opcode =? 1), (opcode =? 2), fin; reflexivity.
    - rewrite Hb0. unfold generateFirstByte. fold opcode fin.
      destruct (opcode =? 1), (opcode =? 2), fin; reflexivity.
    - rewrite Hb0. unfold generateFirstByte. fold opcode fin.
      destruct (opcode =? 1), (opcode =? 2), fin; reflexivity. }
  rewrite <- (app_nil_r payload) at 1.
  change (b0 :: b1 :: payload ++ []) with ([b0; b1] ++ payload ++ []) in Hh |- *.
  now rewrite (readFrame_decodes this [b0; b1] payload [] payload h).
Qed.

Lemma roundtrip_any_options_witness :
  exists rawFrame,
    createFrame [Byte.x68; Byte.x69] (ICreateFrameOptions.Build 9 true) = ok rawFrame
    /\ readFrame rawFrame newParser
       = (ok [],
          mkParser (parsedFrames newParser
                    ++ [IFrame.Build false 0 0 0 2 false 2 [Byte.x68; Byte.x69] 4])
                   None).
Proof.
  apply (roundtrip_any_options newParser [Byte.x68; Byte.x69]
           (ICreateFrameOptions.Build 9 true)).
  - reflexivity.
  - vm_compute. discriminate.
Defined.

(** X15.  [createFrame] returns a frame exactly for the payloads of at
    most 255 bytes; for a longer payload it throws a [RangeError], whatever
    the options, because the payload length is written into the second byte
    of the frame as it is. *)
Theorem createFrame_throws_iff
        (payload : Buffer.t) (options : ICreateFrameOptions.t) :
  ((exists rawFrame, createFrame payload options = ok rawFrame)
   <-> Buffer.byteLength payload <= 255)
  /\ (createFrame payload options = throw RangeError
      <-> 255 < Buffer.byteLength payload).
Proof.
  destruct (Z.le_gt_cases (Buffer.byteLength payload) 255) as [Hle | Hgt].
  - assert (Hret : exists rawFrame, createFrame payload options = ok rawFrame).
    { destruct (Z.eq_dec (Buffer.byteLength payload) 126) as [H126 | H126].
      - rewrite createFrame_126 by assumption. eauto.
      - rewrite createFrame_short by assumption. eauto. }
    split; split; auto.
    + destruct Hret as [rawFrame ->]. discriminate.
    + lia.
  - pose proof (createFrame_long payload options Hgt) as Hthrow.
    split; split; auto.
    + intros [rawFrame Hr]. rewrite Hthrow in Hr. discriminate.
    + lia.
Qed.

(** ** The bytes of unmask *)

(** X16.  What [unmask] computes.  For a length that does not exceed the
    input and a key of 4 bytes it returns a buffer of [payloadLen] bytes
    whose byte [i] is byte [i] of the input XOR byte [i mod 4] of the
    key. *)
Theorem unmask_bytes (rawPayload maskingKey : Buffer.t) (payloadLen : Z) :
  0 <= payloadLen <= Buffer.byteLength rawPayload ->
  length maskingKey = 4%nat ->
  exists payload,
    unmask rawPayload payloadLen maskingKey = ok payload
    /\ Buffer.byteLength payload = payloadLen
    /\ forall i : nat,
        (i < Z.to_nat payloadLen)%nat ->
        exists r k p,
          rawPayload !! i = Some r
          /\ maskingKey !! (i mod 4)%nat = Some k
          /\ payload !! i = Some p
          /\ byte.unsigned p = Z.lxor (byte.unsigned r) (byte.unsigned k).
Proof.
  intros [Hlo Hhi] Hkey.
  exists (unmasked rawPayload maskingKey (Z.to_nat payloadLen)).
  split; [now apply unmask_unmasked |].
  split; [unfold Buffer.byteLength; rewrite length_unmasked; lia |].
  intros i Hi.
  destruct (lookup_lt_is_Some_2 rawPayload i) as [r Hr].
  { unfold Buffer.byteLength in Hhi. lia. }
  destruct (lookup_lt_is_Some_2 maskingKey (i mod 4)) as [k Hk].
  { rewrite Hkey. apply Nat.mod_upper_bound. discriminate. }
  exists r, k, (unmasked_byte rawPayload maskingKey i).
  split; [exact Hr |]. split; [exact Hk |].
  split; [now apply lookup_unmasked |].
  unfold unmasked_byte. rewrite Hr, Hk. cbn [toInt32].
  apply byte_unsigned_of_Z_small, lxor_byte_bounds; apply byte_unsigned_bounds.
Qed.

Lemma unmask_bytes_witness :
  exists payload,
    unmask [Byte.x69; Byte.x6b; Byte.x6a] 3 [Byte.x01; Byte.x02; Byte.x03; Byte.x04]
    = ok payload
    /\ Buffer.byteLength payload = 3
    /\ forall i : nat,
        (i < Z.to_nat 3)%nat ->
        exists r k p,
          [Byte.x69; Byte.x6b; Byte.x6a] !! i = Some r
          /\ [Byte.x01; Byte.x02; Byte.x03; Byte.x04] !! (i mod 4)%nat = Some k
          /\ payload !! i = Some p
          /\ byte.unsigned p = Z.lxor (byte.unsigned r) (byte.unsigned k).
Proof.
  apply (unmask_bytes [Byte.x69; Byte.x6b; Byte.x6a]
                      [Byte.x01; Byte.x02; Byte.x03; Byte.x04] 3).
  - vm_compute. split; discriminate.
  - reflexivity.
Defined.

(** ** One frame in any number of chunks *)

Lemma readFrames_empty_chunks (chunks : list Buffer.t) (this : WebsocketParser) :
  fragmentedFrame this = None ->
  List.concat chunks = [] ->
  readFrames chunks this = (ok tt, this).
Proof.
  intros Hidle. induction chunks as [| c chunks IH]; intros Hall.
  - reflexivity.
  - cbn [List.concat] in Hall. apply app_eq_nil in Hall as [-> Hall].
    cbn [readFrames]. unfold bind.
    rewrite readFrame_empty_idle by assumption. now apply IH.
Qed.

(** A pending frame and chunks that bring exactly the bytes it misses. *)
Lemma pending_completed_exactly (chunks : list Buffer.t) :
  forall (this : WebsocketParser) (ff : IFragmentedFrame.t) (payload : Buffer.t),
    fragmentedFrame this = Some ff ->
    Buffer.byteLength (IFragmentedFrame.rawPayload ff) < IFragmentedFrame.payloadLen ff ->
    Buffer.byteLength (List.concat chunks)
    = IFragmentedFrame.payloadLen ff
      - Buffer.byteLength (IFragmentedFrame.rawPayload ff) ->
    unmask_if (IFragmentedFrame.mask ff)
              (IFragmentedFrame.rawPayload ff ++ List.concat chunks)
              (IFragmentedFrame.payloadLen ff)
              (IFragmentedFrame.maskingKey ff) = ok payload ->
    readFrames chunks this
    = (ok tt, mkParser (parsedFrames this ++ [frame_of_fragment ff payload]) None).
Proof.
  induction chunks as [| c chunks IH]; intros this ff payload Hff Hshort Hexact Hu.
  - change (Buffer.byteLength (List.concat [])) with 0 in Hexact. lia.
  - cbn [List.concat] in Hexact, Hu. rewrite byteLength_app in Hexact.
    pose proof (byteLength_nonneg (List.concat chunks)) as Hnn.
    pose proof (readFragmentedBuffer_short c this ff Hff Hshort) as Hstep.
    cbv zeta in Hstep.
    destruct Hstep as [(Hlt & Heq) | (Hge & payload' & Hu' & _ & Heq)].
    + set (ff' := IFragmentedFrame.set_rawPayload
                    ff (IFragmentedFrame.rawPayload ff ++ c)) in *.
      assert (Hcall : readFrame c this
                      = (ok [], mkParser (parsedFrames this) (Some ff'))).
      { rewrite readFrame_eq, Heq. reflexivity. }
      cbn [readFrames]. unfold bind at 1. rewrite Hcall.
      cbv beta iota delta [ok].
      rewrite (IH (mkParser (parsedFrames this) (Some ff')) ff' payload eq_refl).
      * reflexivity.
      * cbn [ff' IFragmentedFrame.set_rawPayload IFragmentedFrame.rawPayload
                 IFragmentedFrame.payloadLen].
        rewrite byteLength_app. lia.
      * cbn [ff' IFragmentedFrame.set_rawPayload IFragmentedFrame.rawPayload
                 IFragmentedFrame.payloadLen].
        rewrite byteLength_app. lia.
      * cbn [ff' IFragmentedFrame.set_rawPayload IFragmentedFrame.rawPayload
                 IFragmentedFrame.payloadLen IFragmentedFrame.mask
                 IFragmentedFrame.maskingKey].
        now rewrite <- app_assoc.
    + assert (Hrest : List.concat chunks = []).
      { apply length_zero_iff_nil. unfold Buffer.byteLength in *. lia. }
      assert (Hall : Z.to_nat (IFragmentedFrame.payloadLen ff
                               - Buffer.byteLength (IFragmentedFrame.rawPayload ff))
                     = length c).
      { rewrite Hrest in Hexact. change (Buffer.byteLength []) with 0 in Hexact.
        unfold Buffer.byteLength in *. lia. }
      rewrite Hall, firstn_all in Hu'. rewrite Hall, drop_all in Heq.
      rewrite Hrest, app_nil_r in Hu. rewrite Hu in Hu'. injection Hu' as <-.
      assert (Hcall : readFrame c this
                      = (ok [], mkParser (parsedFrames this
                                          ++ [frame_of_fragment ff payload]) None)).
      { rewrite readFrame_eq, Heq. reflexivity. }
      cbn [readFrames]. unfold bind at 1. rewrite Hcall.
      cbv beta iota delta [ok].
      now apply readFrames_empty_chunks.
Qed.

(** X17.  One complete frame delivered in any number of chunks.  If the
    first chunk holds the whole header ([frameLen - payloadLen] bytes) and
    the chunks together are the frame, [readFrame] on one chunk after the
    other, from a parser with no pending partial frame, never throws and
    leaves the queue with exactly that one frame appended, all fields as
    when the frame arrives in one chunk, and nothing pending.  The payload
    can be cut anywhere and any chunk after the first can be empty. *)
Theorem one_frame_in_chunks
        (this : WebsocketParser) (s first : Buffer.t) (chunks : list Buffer.t)
        (frame : IFrame.t) :
  fragmentedFrame this = None ->
  complete_frame s frame ->
  s = first ++ List.concat chunks ->
  IFrame.frameLen frame - IFrame.payloadLen frame <= Buffer.byteLength first ->
  readFrames (first :: chunks) this
  = (ok tt, mkParser (parsedFrames this ++ [frame]) None).
Proof.
  intros Hidle Hs Hsplit Hhdr.
  destruct (complete_frame_inv _ _ Hs)
    as (h & payload & Hh & Hdrop & Hu & Hpl & Hframe).
  destruct (parseHeader_bounds _ _ Hh) as [Hnn Hoff].
  rewrite Hframe in Hhdr. cbn [frame_of_header IFrame.frameLen IFrame.payloadLen] in Hhdr.
  rewrite Hpl in Hhdr.
  set (off := Header.byteOffset h) in *. set (len := Header.payloadLen h) in *.
  assert (Hoffk : off <= Buffer.byteLength first) by lia.
  assert (Hslen : Buffer.byteLength s = off + len).
  { unfold Buffer.byteLength in *. rewrite length_drop in Hdrop.
    rewrite Hsplit, length_app in *. lia. }
  destruct (List.concat chunks) as [| b tail] eqn:Htail.
  - (* the first chunk is the whole frame *)
    rewrite app_nil_r in Hsplit. subst first.
    cbn [readFrames]. unfold bind at 1.
    rewrite <- (app_nil_r s) at 1.
    rewrite (readFrame_complete_app s [] frame this Hs) by
      (try assumption; rewrite Hframe; cbn [frame_of_header IFrame.frameLen];
       fold off; lia).
    cbv beta iota delta [ok]. now apply readFrames_empty_chunks.
  - (* the first chunk ends inside the payload *)
    rewrite <- Htail in Hsplit.
    assert (Hlt : Buffer.byteLength first < off + len).
    { rewrite <- Hslen, Hsplit, byteLength_app, Htail.
      unfold Buffer.byteLength. cbn [length]. lia. }
    assert (Hhfirst : parseHeader first = ok h).
    { replace first with (take (length first) s)
        by (rewrite Hsplit; apply take_app_length).
      apply parseHeader_take; [assumption |]. unfold Buffer.byteLength in Hoffk.
      fold off. lia. }
    set (ff := fragment_of_header h (drop (Z.to_nat off) first)).
    assert (Hcall : readFrame first this
                    = (ok [], mkParser (parsedFrames this) (Some ff))).
    { rewrite readFrame_idle by assumption. rewrite parseFrame_cases.
      destruct (Z.leb_spec (Buffer.byteLength first) 0) as [Hemp | _]; [lia |].
      rewrite Hhfirst. cbv beta iota zeta delta [ok]. fold off len.
      rewrite slice_range by lia.
      replace (off + len - off) with len by lia.
      rewrite (take_ge (drop (Z.to_nat off) first))
        by (rewrite length_drop; unfold Buffer.byteLength in Hlt; lia).
      destruct (Z.ltb_spec (Buffer.byteLength (drop (Z.to_nat off) first)) len)
        as [_ | Hfull]; [reflexivity |].
      unfold Buffer.byteLength in *. rewrite length_drop in Hfull. lia. }
    cbn [readFrames]. unfold bind at 1. rewrite Hcall.
    cbv beta iota delta [ok].
    rewrite (pending_completed_exactly
               chunks (mkParser (parsedFrames this) (Some ff)) ff payload eq_refl).
    + cbn [parsedFrames]. rewrite Hframe. reflexivity.
    + cbn [ff fragment_of_header IFragmentedFrame.rawPayload
              IFragmentedFrame.payloadLen]. fold len.
      unfold Buffer.byteLength in *. rewrite length_drop. lia.
    + cbn [ff fragment_of_header IFragmentedFrame.rawPayload
              IFragmentedFrame.payloadLen]. fold len.
      rewrite Hsplit, byteLength_app in Hslen.
      unfold Buffer.byteLength in *. rewrite length_drop. lia.
    + cbn [ff fragment_of_header IFragmentedFrame.rawPayload
              IFragmentedFrame.payloadLen IFragmentedFrame.mask
              IFragmentedFrame.maskingKey]. fold len.
      rewrite <- Hu. f_equal. rewrite Hsplit.
      rewrite drop_app_le by (unfold Buffer.byteLength in Hoffk; lia).
      reflexivity.
Qed.

Lemma one_frame_in_chunks_witness :
  readFrames ([Byte.x81; Byte.x83; Byte.x01; Byte.x02; Byte.x03; Byte.x04]
              :: [[Byte.x69]; []; [Byte.x6b; Byte.x6a]]) newParser
  = (ok tt,
     mkParser (parsedFrames newParser
               ++ [IFrame.Build true 0 0 0 1 true 3
                                [Byte.x68; Byte.x69; Byte.x69] 9]) None).
Proof.
  apply (one_frame_in_chunks newParser
           [Byte.x81; Byte.x83; Byte.x01; Byte.x02; Byte.x03; Byte.x04;
            Byte.x69; Byte.x6b; Byte.x6a]
           [Byte.x81; Byte.x83; Byte.x01; Byte.x02; Byte.x03; Byte.x04]
           [[Byte.x69]; []; [Byte.x6b; Byte.x6a]]
           (IFrame.Build true 0 0 0 1 true 3 [Byte.x68; Byte.x69; Byte.x69] 9)).
  - reflexivity.
  - vm_compute. reflexivity.
  - reflexivity.
  - vm_compute. discriminate.
Defined.
